(** * tlsmuxd: a shallow embedding of the TLS multiplexing proxy

    The development follows [proxy.go] and [main.go]:
    - [Proxy]   : configuration validation and routing-table construction
                  ([proxy.init], [contains]), the session-ticket key ring
                  ([proxy.rotateSessionTicketKeys]);
    - [Acceptor]: the keep-alive listener wrapper and the accept loop
                  ([tcpKeepAliveListener.Accept], [proxy.serve]);
    - [Relay]   : the handshake router and the bidirectional stream relay
                  ([proxy.handle], [backend.handle]) as an interleaving
                  semantics of the two copy goroutines. *)

From stdpp Require Import gmap strings pretty list fin_maps.
From Stdlib Require Import ZArith Lia.

(** ** Shared data *)

(** A session-ticket key is a [[32]byte] array. *)
Definition key := list Byte.byte.
Definition zero_key : key := repeat Byte.x00 32.

(** Outcome of one [rand.Read(keys[0][:])]: the 32 bytes read, or the error. *)
Inductive rand_result :=
| RandOk (k : key)
| RandErr (msg : string).

(** [type backend struct { name string; addr string }] *)
Record backend := Backend { name : string; addr : string }.

#[global] Instance backend_eq_dec : EqDecision backend.
Proof. solve_decision. Defined.

Module Proxy.

(** An element of [proxy.Protos]. *)
Record proto_def := ProtoDef { Name : string; Hosts : gmap string string }.

(** The part of [tls.Config] the proxy sets. [sessionTicketKeys] is the copy
    of the key list that [SetSessionTicketKeys] installs. *)
Record tls_config := TlsConfig {
  PreferServerCipherSuites : bool;
  MinVersion : Z;
  NextProtos : list string;
  sessionTicketKeys : list key }.

Definition VersionTLS12 : Z := 0x0303.

(** The part of [autocert.Manager] the proxy sets; [HostPolicy] is the
    argument list of [autocert.HostWhitelist], [ClientTimeout] the timeout of
    the ACME HTTP client in nanoseconds. *)
Record autocert_manager := Manager {
  HostPolicy : list string;
  Cache : string;
  ManagerEmail : string;
  ClientTimeout : Z }.

(** A Go map is a reference: [p.backends] maps a protocol name to the
    location of its host map in the store [hostmaps] of the [world]. *)
Abbreviation ref := nat (only parsing).

Record proxy := MkProxy {
  BindInterfaces : list string;
  Email : string;
  CacheDir : string;
  Protos : list proto_def;
  DefaultProto : string;
  backends : gmap string ref;
  manager : option autocert_manager;
  config : option tls_config }.

(** A slice [[][32]byte]: its backing array and its length; the capacity is
    the length of the backing array. *)
Record key_slice := KeySlice { arr : list key; len : nat }.

Definition cap (ks : key_slice) : nat := length (arr ks).

(** The elements a reader of the slice sees: [keys[0:len]]. *)
Definition visible (ks : key_slice) : list key := take (len ks) (arr ks).

(** What [init] acts upon: the proxy object, the store of host maps made so
    far, and the key slice handed to the rotation goroutine once it runs. *)
Record world := World {
  px : proxy;
  hostmaps : list (gmap string backend);
  rotator : option key_slice }.

(** The errors [init] returns, one constructor per message:
    - [DefaultProtoEmpty]       : defaultProto is empty or missing
    - [ProtoNameEmpty i]        : protos[i].name is empty or missing
    - [ProtoHostsEmpty i]       : protos[i].hosts is empty or missing
    - [HostKeyEmpty i]          : empty key in protos[i].hosts
    - [HostAddrEmpty i host]    : protos[i].hosts.host is empty
    - [DefaultProtoUndefined n] : defaultProto (n) is not defined in protos
    - [CacheDirEmpty]           : empty or missing cacheDir
    - [KeyGenFailed err]        : session ticket key generation failed: err *)
Inductive init_error :=
| DefaultProtoEmpty
| ProtoNameEmpty (i : nat)
| ProtoHostsEmpty (i : nat)
| HostKeyEmpty (i : nat)
| HostAddrEmpty (i : nat) (host : string)
| DefaultProtoUndefined (n : string)
| CacheDirEmpty
| KeyGenFailed (err : string).

#[global] Instance init_error_eq_dec : EqDecision init_error.
Proof. solve_decision. Defined.

(** How a call ends: it returns [nil], it returns an error, or the runtime
    panics (an assignment to an entry of a nil map). *)
Inductive outcome :=
| Nil
| Error (e : init_error)
| Panicked.

(** [func contains(strs []string, s1 string) bool] *)
Fixpoint contains (strs : list string) (s1 : string) : bool :=
  match strs with
  | [] => false
  | s2 :: strs' => if decide (s1 = s2) then true else contains strs' s1
  end.

(** [p.config.SetSessionTicketKeys(keys)]: the TLS layer takes a copy of the
    [len(keys)] keys under its own lock. *)
Definition SetSessionTicketKeys (cfg : tls_config) (keys : key_slice)
    : tls_config :=
  TlsConfig (PreferServerCipherSuites cfg) (MinVersion cfg) (NextProtos cfg)
            (visible keys).

Section Init.

(** [fmt]'s [%q] verb (Go-syntax quoting of a string) belongs to the
    standard library and is left abstract. *)
Variable quote : string -> string.

(** The order in which [range proto.Hosts] yields the entries of the host
    map of [protos[i]]: the Go runtime picks it, every entry comes once. *)
Variable range_order : nat -> gmap string string -> list (string * string).

(** [fmt.Sprintf] of the label format [%q.%q: ] with [proto.Name], [host]. *)
Definition label (pname host : string) : string :=
  quote pname +:+ "." +:+ quote host +:+ ": ".

(** The text of an error of [init], as [errors.New] and [fmt.Errorf] make
    it ([%d] prints the index in decimal). *)
Definition message (e : init_error) : string :=
  match e with
  | DefaultProtoEmpty => "defaultProto is empty or missing"
  | ProtoNameEmpty i => "protos[" +:+ pretty i +:+ "].name is empty or missing"
  | ProtoHostsEmpty i => "protos[" +:+ pretty i +:+ "].hosts is empty or missing"
  | HostKeyEmpty i => "empty key in protos[" +:+ pretty i +:+ "].hosts"
  | HostAddrEmpty i host =>
    "protos[" +:+ pretty i +:+ "].hosts." +:+ quote host +:+ " is empty"
  | DefaultProtoUndefined n =>
    "defaultProto (" +:+ quote n +:+ ") is not defined in protos"
  | CacheDirEmpty => "empty or missing cacheDir"
  | KeyGenFailed err => "session ticket key generation failed: " +:+ err
  end.

(** The variables the loop over [p.Protos] updates. *)
Record loop_state := LoopState {
  ls_backends : gmap string ref;
  ls_hostmaps : list (gmap string backend);
  ls_hosts : list string;
  ls_next : list string }.

(** The body of [for host, addr := range proto.Hosts], over the entries in
    the order they are yielded. *)
Fixpoint range_hosts (i : nat) (pname : string)
    (entries : list (string * string)) (s : loop_state)
    : loop_state * outcome :=
  match entries with
  | [] => (s, Nil)
  | (host, addr) :: rest =>
    if decide (host = "") then (s, Error (HostKeyEmpty i))
    else if decide (addr = "") then (s, Error (HostAddrEmpty i host))
    else
      match ls_backends s !! pname with
      | None => (s, Panicked)
      | Some r =>
        let hm := alter (insert host (Backend (label pname host) addr)) r
                        (ls_hostmaps s) in
        let hs := if contains (ls_hosts s) host then ls_hosts s
                  else ls_hosts s ++ [host] in
        range_hosts i pname rest
          (LoopState (ls_backends s) hm hs (ls_next s))
      end
  end.

(** The body of [for i, proto := range p.Protos], from index [i] on. *)
Fixpoint range_protos (i : nat) (protos : list proto_def) (s : loop_state)
    : loop_state * outcome :=
  match protos with
  | [] => (s, Nil)
  | proto :: rest =>
    if decide (Name proto = "") then (s, Error (ProtoNameEmpty i))
    else if decide (size (Hosts proto) = 0) then (s, Error (ProtoHostsEmpty i))
    else
      let s1 := LoopState (<[Name proto := length (ls_hostmaps s)]> (ls_backends s))
                          (ls_hostmaps s ++ [∅]) (ls_hosts s) (ls_next s) in
      match range_hosts i (Name proto) (range_order i (Hosts proto)) s1 with
      | (s2, Nil) =>
        range_protos (S i) rest
          (LoopState (ls_backends s2) (ls_hostmaps s2) (ls_hosts s2)
                     (ls_next s2 ++ [Name proto]))
      | stop => stop
      end
  end.

Definition set_px (w : world) (p : proxy) : world :=
  World p (hostmaps w) (rotator w).

(** [func (p *proxy) init() error], with the outcome of its one
    [rand.Read] as [rnd]. *)
Definition init (w : world) (rnd : rand_result) : world * outcome :=
  let p := px w in
  let binds := if decide (length (BindInterfaces p) = 0) then [""]
               else BindInterfaces p in
  let p := MkProxy binds (Email p) (CacheDir p) (Protos p) (DefaultProto p)
                   (backends p) (manager p) (config p) in
  if decide (DefaultProto p = "") then (set_px w p, Error DefaultProtoEmpty)
  else
    (* p.config is made here; its NextProtos grow in the loop as ls_next *)
    match range_protos 0 (Protos p) (LoopState ∅ (hostmaps w) [] []) with
    | (s, Nil) =>
      let cfg := TlsConfig true VersionTLS12 (ls_next s) [] in
      let mk bs mgr cfg :=
        MkProxy binds (Email p) (CacheDir p) (Protos p) (DefaultProto p)
                bs mgr (Some cfg) in
      match ls_backends s !! DefaultProto p with
      | None =>
        (* the comma-ok assignment stores a nil map under the empty name,
           which reads as an absent entry *)
        (World (mk (ls_backends s) (manager p) cfg)
               (ls_hostmaps s) (rotator w),
         Error (DefaultProtoUndefined (DefaultProto p)))
      | Some r =>
        let bs := <["" := r]> (ls_backends s) in
        if decide (CacheDir p = "")
        then (World (mk bs (manager p) cfg) (ls_hostmaps s) (rotator w),
              Error CacheDirEmpty)
        else
          let mgr := Some (Manager (ls_hosts s) (CacheDir p) (Email p)
                                   15000000000) in
          (* keys := make([][32]byte, 1, 96) *)
          let keys := KeySlice (repeat zero_key 96) 1 in
          match rnd with
          | RandErr msg =>
            (World (mk bs mgr cfg) (ls_hostmaps s) (rotator w),
             Error (KeyGenFailed msg))
          | RandOk k =>
            let keys := KeySlice (<[0 := k]> (arr keys)) (len keys) in
            let cfg := SetSessionTicketKeys cfg keys in
            (* go p.rotateSessionTicketKeys(keys) *)
            (World (mk bs mgr cfg) (ls_hostmaps s) (Some keys), Nil)
          end
      end
    | (s, stop) =>
      (World (MkProxy binds (Email p) (CacheDir p) (Protos p)
                      (DefaultProto p) (ls_backends s) (manager p)
                      (Some (TlsConfig true VersionTLS12 (ls_next s) [])))
             (ls_hostmaps s) (rotator w),
       stop)
    end.

End Init.

(** *** Session-ticket key rotation *)

(** The shifting loop
    [for s1, s2 := len(keys)-2, len(keys)-1; s2 > 0; s1, s2 = s1-1, s2-1]
    with body [keys[s2] = keys[s1]], entered with [s2] (and [s1 = s2-1]) on
    a slice of length [n]; [None] is an index out of range. *)
Fixpoint shift_loop (n s2 : nat) (a : list key) : option (list key) :=
  match s2 with
  | 0 => Some a
  | S s1 =>
    if decide (S s1 < n) then
      match a !! s1 with
      | Some k => shift_loop n s1 (<[S s1 := k]> a)
      | None => None
      end
    else None
  end.

(** How one turn of the rotation loop ends. *)
Inductive rotation :=
| Rotated (cfg : tls_config) (keys : key_slice)
| Fatal (msg : string)          (* log.Fatalf: the process exits *)
| OutOfRange.                   (* run-time panic *)

(** One turn of the [for] loop of [rotateSessionTicketKeys], after its
    [time.Sleep(1 * time.Hour)], with the outcome of its [rand.Read]. *)
Definition rotate_once (cfg : tls_config) (keys : key_slice)
    (rnd : rand_result) : rotation :=
  let keys := if decide (len keys < cap keys)
              then KeySlice (arr keys) (len keys + 1) else keys in
  match shift_loop (len keys) (len keys - 1) (arr keys) with
  | None => OutOfRange
  | Some a =>
    if decide (0 < len keys) then
      match rnd with
      | RandErr msg => Fatal msg
      | RandOk k =>
        let keys := KeySlice (<[0 := k]> a) (len keys) in
        Rotated (SetSessionTicketKeys cfg keys) keys
      end
    else OutOfRange
  end.

(** [func (p *proxy) rotateSessionTicketKeys(keys [][32]byte)]: the loop
    never returns; it is run here over the outcomes of [rand.Read] at the
    successive hourly ticks. [Rotated] at the end of the list is the loop
    asleep until the next tick. *)
Fixpoint rotateSessionTicketKeys (cfg : tls_config) (keys : key_slice)
    (ticks : list rand_result) : rotation :=
  match ticks with
  | [] => Rotated cfg keys
  | rnd :: ticks' =>
    match rotate_once cfg keys rnd with
    | Rotated cfg' keys' => rotateSessionTicketKeys cfg' keys' ticks'
    | stop => stop
    end
  end.

End Proxy.

(** ** The listening surface and the accept loop *)

Module Acceptor.

#[local] Open Scope Z_scope.

(** [time.Duration] is an [int64] count of nanoseconds. *)
Definition Duration := Z.
Definition wrap64 (z : Z) : Z := (z + 2 ^ 63) mod 2 ^ 64 - 2 ^ 63.
Definition Millisecond : Duration := 1000000.
Definition Second : Duration := 1000000000.

(** An [error] value as the accept loop inspects it: whether it implements
    [net.Error], and what its [Temporary()] then answers. *)
Record error := MkError {
  message : string;
  is_net_error : bool;
  Temporary : bool }.

(** An accepted [*net.TCPConn], with its keep-alive socket options. *)
Record TCPConn := MkTCPConn {
  RemoteAddr : string;
  KeepAlive : bool;
  KeepAlivePeriod : option Duration }.

Definition SetKeepAlive (keepalive : bool) (tc : TCPConn) : TCPConn :=
  MkTCPConn (RemoteAddr tc) keepalive (KeepAlivePeriod tc).

Definition SetKeepAlivePeriod (d : Duration) (tc : TCPConn) : TCPConn :=
  MkTCPConn (RemoteAddr tc) (KeepAlive tc) (Some d).

Section Listener.

(** [d.KeepAlive]: the period comes from a dialer [d] declared outside the
    two source files. *)
Variable d_KeepAlive : Duration.

(** [func (ln tcpKeepAliveListener) Accept() (c net.Conn, err error)], on
    the outcome of its call [ln.AcceptTCP()]. The two setters are called
    for their effect on the socket; what they return is dropped. *)
Definition Accept (accepted : TCPConn + error) : TCPConn + error :=
  match accepted with
  | inr err => inr err
  | inl tc =>
    let tc := SetKeepAlive true tc in
    let tc := SetKeepAlivePeriod d_KeepAlive tc in
    inl tc
  end.

End Listener.

(** What the accept loop does, in order. *)
Inductive event (Conn : Type) :=
| LogRetry (err : error) (delay : Duration)  (* log.Printf: err; retrying in delay *)
| Sleep (delay : Duration)                   (* time.Sleep(delay) *)
| GoHandle (c : Conn)                        (* go p.handle(c) *)
| ListenerClose.                             (* the deferred l.Close() *)
Arguments LogRetry {Conn}.
Arguments Sleep {Conn}.
Arguments GoHandle {Conn}.
Arguments ListenerClose {Conn}.

(** Where the loop stands once the accept outcomes at hand are consumed:
    it has returned an error, or it is blocked in [l.Accept()] holding the
    current [delay]. *)
Inductive status :=
| Returned (err : error)
| Accepting (delay : Duration).

Section Serve.

Context {Conn : Type}.

(** The update of [delay] on a temporary error. *)
Definition backoff (delay : Duration) : Duration :=
  if decide (delay = 0) then 5 * Millisecond
  else
    let delay := wrap64 (delay * 2) in
    if decide (delay > Second) then Second else delay.

(** The [for] loop of [serve], run over the outcomes of the successive
    calls [l.Accept()]. *)
Fixpoint serve_loop (accepts : list (Conn + error)) (delay : Duration)
    : list (event Conn) * status :=
  match accepts with
  | [] => ([], Accepting delay)
  | inr err :: rest =>
    if is_net_error err && Temporary err then
      let delay := backoff delay in
      let '(evs, st) := serve_loop rest delay in
      (LogRetry err delay :: Sleep delay :: evs, st)
    else ([ListenerClose], Returned err)
  | inl c :: rest =>
    let '(evs, st) := serve_loop rest 0 in
    (GoHandle c :: evs, st)
  end.

(** [func (p *proxy) serve(l net.Listener) error] *)
Definition serve (accepts : list (Conn + error))
    : list (event Conn) * status :=
  serve_loop accepts 0.

End Serve.

(** [main] serves every listener wrapped in a [tcpKeepAliveListener]: the
    loop over the wrapper's [Accept], on the outcomes of [AcceptTCP]. *)
Definition serve_tcp (d_KeepAlive : Duration) (accepted : list (TCPConn + error))
    : list (event TCPConn) * status :=
  serve (map (Accept d_KeepAlive) accepted).

End Acceptor.

(** ** The handshake router and the stream relay *)

Module Relay.

Import Proxy.

(** The sockets of one connection: the raw client connection [c] of
    [proxy.handle], its TLS wrapper [tlc] (the [c1] of [backend.handle]),
    and the dialled backend connection [c2]. *)
Inductive sock := RawClient | TlsClient | BackendSock.

#[global] Instance sock_eq_dec : EqDecision sock.
Proof. solve_decision. Defined.

(** The goroutines of one connection: the handler's own, which ends up
    running [cp(c2, c1)], and the one started by [go cp(c1, c2)]. *)
Inductive tid := Handler | Spawned.

#[global] Instance tid_eq_dec : EqDecision tid.
Proof. solve_decision. Defined.

(** The lines written to the log. *)
Inductive log_line :=
| HandshakeFailed (raddr err : string)   (* TLS handshake error from raddr: err *)
| UnableToFind (np sn raddr : string)    (* unable to find np.sn for raddr *)
| Accepted (bname raddr : string)        (* b.logf: accepted raddr *)
| Failure (bname err : string)           (* b.log(err) *)
| Disconnected (bname raddr : string).   (* b.logf: disconnected raddr *)

(** What a goroutine does to the outside. *)
Inductive action :=
| ALog (l : log_line)
| AClose (s : sock)
| ADial (address : string)
| AGet (buf : nat)                 (* bufferPool.Get() returned buf *)
| ACopy (err : option string)      (* io.CopyBuffer returned err *)
| ASend (sent : bool)              (* the select on first: sent, or default *)
| APut (buf : nat).                (* bufferPool.Put(buf) *)

Definition event : Type := tid * action.

(** What the TLS layer reports at the end of [tlc.Handshake()]. *)
Inductive handshake :=
| HandshakeError (err : string)
| ConnectionState (NegotiatedProtocol ServerName : string).

(** [func (p *proxy) handle(c net.Conn)] up to its last call: what it does,
    and the backend whose [handle] it calls with [tlc], if it gets there.
    Indexing a nil or missing map yields the zero value and [ok = false]. *)
Definition handle (w : world) (raddr : string) (hs : handshake)
    : list action * option backend :=
  match hs with
  | HandshakeError err =>
    ([ALog (HandshakeFailed raddr err); AClose RawClient], None)
  | ConnectionState np sn =>
    let hosts := backends (px w) !! np ≫= (hostmaps w !!.) in
    match hosts ≫= (.!! sn) with
    | None => ([ALog (UnableToFind np sn raddr); AClose RawClient], None)
    | Some b => ([], Some b)
    end
  end.

(** [first := make(chan<- struct{}, 1)]: a buffered channel nobody receives
    from, as its capacity and the number of values queued. *)
Record chan := Chan { chan_cap : nat; chan_len : nat }.

(** [select { case first <- struct{}{}: ... default: }] *)
Definition try_send (c : chan) : chan * bool :=
  if decide (chan_len c < chan_cap c)
  then (Chan (chan_cap c) (S (chan_len c)), true)
  else (c, false).

(** [bufferPool]: the buffers at rest, and the next buffer [New] makes.
    Buffers are told apart by a number; each is [1<<15] bytes long. *)
Record pool := Pool { free : list nat; fresh : nat }.

Definition buffer_size : Z := Z.shiftl 1 15.

(** [bufferPool.Get()]: the buffer at rest the runtime picks, if it picks
    one, or else a new one. *)
Definition pool_get (pick : option nat) (p : pool) : nat * pool :=
  match pick with
  | Some i =>
    match free p !! i with
    | Some buf => (buf, Pool (delete i (free p)) (fresh p))
    | None => (fresh p, Pool (free p) (S (fresh p)))
    end
  | None => (fresh p, Pool (free p) (S (fresh p)))
  end.

(** [bufferPool.Put(buf)] *)
Definition pool_put (buf : nat) (p : pool) : pool :=
  Pool (buf :: free p) (fresh p).

(** Where a goroutine stands in [cp]. *)
Inductive pc :=
| AtGet                                   (* buf := bufferPool.Get() *)
| AtCopy (buf : nat)                      (* in io.CopyBuffer(dst, src, buf) *)
| AtSelect (buf : nat) (err : option string)
| AtLogErr (buf : nat) (err : string)     (* b.log(err), err != nil *)
| AtCloseDst (buf : nat)                  (* dst.Close() *)
| AtCloseSrc (buf : nat)                  (* src.Close() *)
| AtLogDisconnected (buf : nat)           (* b.logf: disconnected *)
| AtPut (buf : nat)                       (* bufferPool.Put(buf) *)
| Done.

#[global] Instance pc_eq_dec : EqDecision pc.
Proof. solve_decision. Defined.

(** [go cp(c1, c2)] copies from the backend to the client, [cp(c2, c1)] on
    the handler's goroutine from the client to the backend. *)
Definition dst (t : tid) : sock :=
  match t with Handler => BackendSock | Spawned => TlsClient end.
Definition src (t : tid) : sock :=
  match t with Handler => TlsClient | Spawned => BackendSock end.

(** What the two goroutines share, and where each stands. *)
Record relay := MkRelay {
  first : chan;
  bufferPool : pool;
  at_handler : pc;
  at_spawned : pc;
  trace : list event }.

Definition at_tid (t : tid) (s : relay) : pc :=
  match t with Handler => at_handler s | Spawned => at_spawned s end.

(** What the environment decides at a step: which goroutine runs, which
    buffer at rest [Get] hands out, and with what [io.CopyBuffer] returns. *)
Record choice := Choice {
  who : tid;
  pick : option nat;
  copy_err : option string }.

Section Backend.

(** The backend [b] and [c1.RemoteAddr()]. *)
Variable b : backend.
Variable raddr : string.

(** One step of [cp] for a goroutine at [p]. *)
Definition cp_step (t : tid) (ch : choice) (p : pc) (f : chan) (bp : pool)
    : option (action * pc * chan * pool) :=
  match p with
  | AtGet =>
    let '(buf, bp') := pool_get (pick ch) bp in
    Some (AGet buf, AtCopy buf, f, bp')
  | AtCopy buf =>
    Some (ACopy (copy_err ch), AtSelect buf (copy_err ch), f, bp)
  | AtSelect buf err =>
    match try_send f with
    | (f', true) =>
      Some (ASend true,
            match err with
            | Some e => AtLogErr buf e
            | None => AtCloseDst buf
            end, f', bp)
    | (f', false) => Some (ASend false, AtPut buf, f', bp)
    end
  | AtLogErr buf e => Some (ALog (Failure (name b) e), AtCloseDst buf, f, bp)
  | AtCloseDst buf => Some (AClose (dst t), AtCloseSrc buf, f, bp)
  | AtCloseSrc buf => Some (AClose (src t), AtLogDisconnected buf, f, bp)
  | AtLogDisconnected buf =>
    Some (ALog (Disconnected (name b) raddr), AtPut buf, f, bp)
  | AtPut buf => Some (APut buf, Done, f, pool_put buf bp)
  | Done => None
  end.

(** One step of the relay: the chosen goroutine moves, if it still runs. *)
Definition step (ch : choice) (s : relay) : relay :=
  match cp_step (who ch) ch (at_tid (who ch) s) (first s) (bufferPool s) with
  | None => s
  | Some (a, p', f', bp') =>
    match who ch with
    | Handler => MkRelay f' bp' p' (at_spawned s) (trace s ++ [(Handler, a)])
    | Spawned => MkRelay f' bp' (at_handler s) p' (trace s ++ [(Spawned, a)])
    end
  end.

(** The relay under a schedule. *)
Definition run (sched : list choice) (s : relay) : relay :=
  fold_left (fun s ch => step ch s) sched s.

(** The relay as [backend.handle] starts it: the channel made, both
    goroutines at the top of [cp]. *)
Definition start (bp : pool) : relay :=
  MkRelay (Chan 1 0) bp AtGet AtGet [].

(** [func (b *backend) handle(c1 net.Conn)], with the outcome of the dial
    ([Some err] when it fails) and the schedule of the relay: what the
    handler does before the relay, and the relay if there is one. *)
Definition backend_handle (dial : option string) (bp : pool)
    (sched : list choice) : list event * option relay :=
  let before := [(Handler, ALog (Accepted (name b) raddr));
                 (Handler, ADial (addr b))] in
  match dial with
  | Some err =>
    (before ++ [(Handler, ALog (Failure (name b) err));
                (Handler, AClose TlsClient);
                (Handler, ALog (Disconnected (name b) raddr))], None)
  | None => (before, Some (run sched (start bp)))
  end.

End Backend.

(** One connection from [go p.handle(c)] on: the handshake router, then
    the backend's [handle] when the routing table has the backend. *)
Definition connection (w : world) (raddr : string) (hs : handshake)
    (dial : option string) (bp : pool) (sched : list choice) : list event :=
  match handle w raddr hs with
  | (acts, None) => map (pair Handler) acts
  | (acts, Some b) =>
    match backend_handle b raddr dial bp sched with
    | (before, None) => map (pair Handler) acts ++ before
    | (before, Some r) => map (pair Handler) acts ++ before ++ trace r
    end
  end.

(** Counting in a trace: the occurrences of the actions that satisfy [f]. *)
Definition count (f : action -> bool) (tr : list event) : nat :=
  length (filter (fun e => f e.2 = true) tr).

Definition is_close (s : sock) (a : action) : bool :=
  match a with AClose s' => bool_decide (s' = s) | _ => false end.
Definition is_disconnect (a : action) : bool :=
  match a with ALog (Disconnected _ _) => true | _ => false end.
Definition is_dial (a : action) : bool :=
  match a with ADial _ => true | _ => false end.
Definition is_get (a : action) : bool :=
  match a with AGet _ => true | _ => false end.
Definition is_put (a : action) : bool :=
  match a with APut _ => true | _ => false end.
(** Closing a socket or writing to the log. *)
Definition is_teardown (a : action) : bool :=
  match a with ALog _ | AClose _ => true | _ => false end.

(** The attempts on the signal [first], in order: who tried, and whether
    the value was sent. *)
Fixpoint sends (tr : list event) : list (tid * bool) :=
  match tr with
  | [] => []
  | (t, ASend sent) :: tr' => (t, sent) :: sends tr'
  | _ :: tr' => sends tr'
  end.

(** What one goroutine did, in order. *)
Definition local (t : tid) (tr : list event) : list action :=
  (filter (fun e => e.1 = t) tr).*2.

(** The buffer a goroutine holds between [Get] and [Put]. *)
Definition held_at (p : pc) : list nat :=
  match p with
  | AtGet | Done => []
  | AtCopy buf | AtSelect buf _ | AtLogErr buf _ | AtCloseDst buf
  | AtCloseSrc buf | AtLogDisconnected buf | AtPut buf => [buf]
  end.

Definition held (s : relay) : list nat :=
  held_at (at_handler s) ++ held_at (at_spawned s).

End Relay.

(** ** Start-up *)

Module Main.

Import Proxy.

(** Where [main] leaves the process once the configuration is decoded. *)
Inductive process :=
| Exited (code : Z)                            (* log.Fatal, or a panic *)
| Serving (w : world) (interfaces : list string).

(** [main] from [p.init()] on, with the outcome of the [rand.Read] of
    [init] and of [net.Listen] on each bind interface: a fatal log on the
    first error, else one accept loop per interface, each on a
    [tcpKeepAliveListener]. *)
Definition main (quote : string -> string)
    (range_order : nat -> gmap string string -> list (string * string))
    (w : world) (rnd : rand_result) (listen : string -> bool) : process :=
  match init quote range_order w rnd with
  | (w', Nil) =>
    if forallb listen (BindInterfaces (px w'))
    then Serving w' (BindInterfaces (px w'))
    else Exited 1
  | (_, Error _) => Exited 1
  | (_, Panicked) => Exited 2
  end.

End Main.

(** * Properties *)

(** ** The accept loop *)

Module AcceptorFacts.

Import Acceptor.
#[local] Open Scope Z_scope.

(** The delay the specification gives after [n] temporary errors in a row:
    none at first, then 5ms doubled at each further error, at most 1s. *)
Definition spec_delay (n : nat) : Duration :=
  match n with
  | O => 0
  | S m => Z.min (5 * Millisecond * 2 ^ Z.of_nat m) Second
  end.

(** The retries the specification gives for the errors [errs] coming after
    [n] temporary errors in a row. *)
Fixpoint spec_retries {Conn} (n : nat) (errs : list error) : list (event Conn) :=
  match errs with
  | [] => []
  | err :: errs' =>
    LogRetry err (spec_delay (S n)) :: Sleep (spec_delay (S n))
      :: spec_retries (S n) errs'
  end.

Definition temporary (err : error) : Prop :=
  is_net_error err = true /\ Temporary err = true.

Lemma spec_delay_bounds n : 0 <= spec_delay n <= Second.
Proof.
  destruct n as [|m]; cbn [spec_delay]; unfold Second, Millisecond; [lia|].
  assert (0 < 2 ^ Z.of_nat m) by (apply Z.pow_pos_nonneg; lia). lia.
Qed.

Lemma spec_delay_pos n : 0 < spec_delay (S n).
Proof.
  cbn [spec_delay]. unfold Second, Millisecond.
  assert (0 < 2 ^ Z.of_nat n) by (apply Z.pow_pos_nonneg; lia). lia.
Qed.

Lemma wrap64_small z : - 2 ^ 63 <= z < 2 ^ 63 -> wrap64 z = z.
Proof.
  intros Hz. unfold wrap64.
  rewrite Z.mod_small by lia. lia.
Qed.

(** On the delays the loop reaches, doubling never wraps around, and the
    update of the code is the step of the specification. *)
Lemma backoff_spec n : backoff (spec_delay n) = spec_delay (S n).
Proof.
  unfold backoff. destruct n as [|m].
  - cbn. reflexivity.
  - pose proof (spec_delay_pos m) as Hpos.
    pose proof (spec_delay_bounds (S m)) as Hb.
    rewrite wrap64_small by (unfold Second in Hb; lia).
    cbn [spec_delay] in *.
    replace (Z.of_nat (S m)) with (Z.succ (Z.of_nat m)) by lia.
    rewrite Z.pow_succ_r by lia.
    repeat case_decide; lia.
Qed.

Section Loop.

Context {Conn : Type}.
Implicit Types accepts rest : list (Conn + error).

Lemma serve_loop_temporary err rest delay :
  temporary err ->
  serve_loop (inr err :: rest) delay =
    (LogRetry err (backoff delay) :: Sleep (backoff delay)
       :: (serve_loop rest (backoff delay)).1,
     (serve_loop rest (backoff delay)).2).
Proof.
  intros [Hn Ht]. cbn [serve_loop]. rewrite Hn, Ht. cbn.
  destruct (serve_loop rest (backoff delay)); reflexivity.
Qed.

Lemma serve_loop_streak errs n rest :
  Forall temporary errs ->
  serve_loop (map inr errs ++ rest) (spec_delay n) =
    (spec_retries n errs
       ++ (serve_loop rest (spec_delay (n + length errs))).1,
     (serve_loop rest (spec_delay (n + length errs))).2).
Proof.
  intros Hall. revert n. induction Hall as [|err errs Herr _ IH]; intros n.
  - cbn. rewrite Nat.add_0_r. destruct (serve_loop rest _); reflexivity.
  - cbn [map app]. rewrite serve_loop_temporary by done.
    rewrite backoff_spec, IH. cbn [length spec_retries fst snd app].
    replace (S n + length errs)%nat with (n + S (length errs))%nat by lia.
    reflexivity.
Qed.

Lemma serve_loop_success (c : Conn) rest delay :
  serve_loop (inl c :: rest) delay =
    (GoHandle c :: (serve_loop rest 0).1, (serve_loop rest 0).2).
Proof. cbn [serve_loop]. destruct (serve_loop rest 0); reflexivity. Qed.

Lemma serve_loop_fatal err rest delay :
  ~ temporary err ->
  serve_loop (inr err :: rest) delay = ([ListenerClose], Returned err).
Proof.
  intros Hnt. cbn [serve_loop].
  destruct (is_net_error err) eqn:Hn, (Temporary err) eqn:Ht; cbn; try done.
  exfalso. apply Hnt. done.
Qed.

Lemma serve_loop_handles accepts delay (c : Conn) :
  GoHandle c ∈ (serve_loop accepts delay).1 -> inl c ∈ accepts.
Proof.
  revert delay. induction accepts as [|[c'|err] rest IH]; intros delay.
  - cbn. intros H. by apply elem_of_nil in H.
  - rewrite serve_loop_success. cbn [fst].
    intros [Heq|Hin]%elem_of_cons.
    + injection Heq as ->. left.
    + right. by eapply IH.
  - cbn [serve_loop]. destruct (is_net_error err && Temporary err).
    + destruct (serve_loop rest (backoff delay)) eqn:Hs. cbn [fst].
      intros Hin. right. apply (IH (backoff delay)). rewrite Hs. cbn.
      apply elem_of_cons in Hin as [Hin|Hin]; [discriminate|].
      apply elem_of_cons in Hin as [Hin|Hin]; [discriminate|]. done.
    + cbn. intros Hin. apply elem_of_cons in Hin as [Hin|Hin]; [discriminate|].
      by apply elem_of_nil in Hin.
Qed.

Lemma backoff_bounds delay :
  delay = 0 \/ 5 * Millisecond <= delay <= Second ->
  5 * Millisecond <= backoff delay <= Second.
Proof.
  unfold backoff, Second, Millisecond. intros [->|Hd].
  - rewrite decide_True by done. lia.
  - rewrite wrap64_small by lia. repeat case_decide; lia.
Qed.

(** Whatever is accepted, the loop sleeps between 5ms and 1s. *)
Lemma serve_loop_sleeps accepts delay d :
  delay = 0 \/ 5 * Millisecond <= delay <= Second ->
  Sleep d ∈ (serve_loop accepts delay).1 ->
  5 * Millisecond <= d <= Second.
Proof.
  revert delay. induction accepts as [|[c|err] rest IH]; intros delay Hdelay.
  - cbn. by intros ?%elem_of_nil.
  - rewrite serve_loop_success. cbn [fst].
    intros [[=]|Hin]%elem_of_cons. apply (IH 0); [by left|done].
  - cbn [serve_loop]. pose proof (backoff_bounds delay Hdelay) as Hb.
    destruct (is_net_error err && Temporary err).
    + destruct (serve_loop rest (backoff delay)) as [evs st] eqn:Hs.
      cbn [fst]. intros [[=]|Hin]%elem_of_cons.
      apply elem_of_cons in Hin as [[= ->]|Hin]; [done|].
      apply (IH (backoff delay)); [by right|]. by rewrite Hs.
    + cbn. intros [[=]|Hin%elem_of_nil]%elem_of_cons. done.
Qed.

End Loop.

Lemma backoff_zero : backoff 0 = 5 * Millisecond.
Proof. reflexivity. Qed.

Lemma backoff_double delay :
  0 < delay <= Second -> backoff delay = Z.min (2 * delay) Second.
Proof.
  intros Hd. unfold backoff, Second in *.
  rewrite wrap64_small by lia.
  repeat case_decide; lia.
Qed.

(** C4. In the accept loop the delay is zero at the start; a temporary
    error at delay zero sets it to 5ms, a further one doubles it up to one
    second (no wrap-around of the 64-bit duration on the way); a successful
    accept resets it to zero; a non-temporary error ends the loop, which
    closes the listener and returns that error. After [n] temporary errors
    in a row the loop sleeps [min (5ms * 2^n) 1s] at the next one, so three
    in a row sleep 5ms, 10ms, 20ms, and one after a success sleeps 5ms. *)
Theorem serve_backoff (Conn : Type) (errs : list error) (n : nat)
    (c : Conn) (fatal e1 e2 e3 e4 : error)
    (rest : list (Conn + error)) (delay : Duration) :
  Forall temporary errs -> ~ temporary fatal ->
  temporary e1 -> temporary e2 -> temporary e3 -> temporary e4 ->
  serve rest = serve_loop rest 0
  /\ backoff 0 = 5 * Millisecond
  /\ (0 < delay <= Second -> backoff delay = Z.min (2 * delay) Second)
  /\ (forall d, Sleep d ∈ (serve rest).1 -> 5 * Millisecond <= d <= Second)
  /\ serve_loop (map inr errs ++ rest) (spec_delay n) =
       (spec_retries n errs
          ++ (serve_loop rest (spec_delay (n + length errs))).1,
        (serve_loop rest (spec_delay (n + length errs))).2)
  /\ serve_loop (inl c :: rest) delay =
       (GoHandle c :: (serve_loop rest 0).1, (serve_loop rest 0).2)
  /\ serve_loop (inr fatal :: rest) delay = ([ListenerClose], Returned fatal)
  /\ serve [inr e1; inr e2; inr e3; inl c; inr e4] =
       ([LogRetry e1 5000000; Sleep 5000000;
         LogRetry e2 10000000; Sleep 10000000;
         LogRetry e3 20000000; Sleep 20000000;
         GoHandle c;
         LogRetry e4 5000000; Sleep 5000000],
        Accepting 5000000).
Proof.
  intros Herrs Hfatal H1 H2 H3 H4.
  split; [reflexivity|].
  split; [apply backoff_zero|].
  split; [apply backoff_double|].
  split; [intros d; apply serve_loop_sleeps; by left|].
  split; [by apply serve_loop_streak|].
  split; [apply serve_loop_success|].
  split; [by apply serve_loop_fatal|].
  unfold serve.
  rewrite !serve_loop_temporary, serve_loop_success, serve_loop_temporary by done.
  reflexivity.
Qed.

Definition temporary_error : error := MkError "too many open files" true true.
Definition closed_error : error := MkError "use of closed network connection" false false.

Lemma serve_backoff_witness :
  serve_loop (map inr [temporary_error; temporary_error] ++ [inl 7%nat])
             (spec_delay 8) =
    (spec_retries 8 [temporary_error; temporary_error]
       ++ (serve_loop [inl 7%nat] (spec_delay (8 + 2))).1,
     (serve_loop [inl 7%nat] (spec_delay (8 + 2))).2).
Proof.
  assert (Ht : temporary temporary_error) by (split; reflexivity).
  assert (Hc : ~ temporary closed_error) by (intros [H _]; discriminate H).
  apply (serve_backoff nat [temporary_error; temporary_error] 8 7%nat
           closed_error temporary_error temporary_error temporary_error
           temporary_error [inl 7%nat] 0);
    [repeat constructor; exact Ht | exact Hc | exact Ht ..].
Defined.

(** C9. Every connection the accept loop hands to a handler, when it
    serves a [tcpKeepAliveListener], has had keep-alive switched on (and its
    period set) by the wrapper's [Accept] beforehand; an error of
    [AcceptTCP] is passed on as it is. *)
Theorem keepalive_before_handle (d_KeepAlive : Duration)
    (accepted : list (TCPConn + error)) (c : TCPConn) :
  GoHandle c ∈ (serve_tcp d_KeepAlive accepted).1 ->
  KeepAlive c = true /\ KeepAlivePeriod c = Some d_KeepAlive
  /\ exists tc, inl tc ∈ accepted /\ Accept d_KeepAlive (inl tc) = inl c.
Proof.
  unfold serve_tcp, serve. intros Hin%serve_loop_handles.
  apply list_elem_of_fmap in Hin as ([tc|err] & Heq & Hin); cbn in Heq.
  - injection Heq as ->. repeat split. exists tc. by split.
  - discriminate Heq.
Qed.

Lemma keepalive_before_handle_witness :
  KeepAlive (MkTCPConn "192.0.2.1:4711" true (Some 180000000000)) = true
  /\ KeepAlivePeriod (MkTCPConn "192.0.2.1:4711" true (Some 180000000000))
       = Some 180000000000
  /\ exists tc, inl tc ∈ [inr temporary_error;
                         inl (MkTCPConn "192.0.2.1:4711" false None)]
       /\ Accept 180000000000 (inl tc)
          = inl (MkTCPConn "192.0.2.1:4711" true (Some 180000000000)).
Proof.
  apply (keepalive_before_handle 180000000000
           [inr temporary_error; inl (MkTCPConn "192.0.2.1:4711" false None)]).
  vm_compute. set_solver.
Defined.

End AcceptorFacts.

(** ** The session-ticket key ring *)

Module KeyRingFacts.

Import Proxy.

(** The shifting loop moves [keys[0..s2-1]] one place up and leaves the
    rest where it is; it never indexes out of range. *)
Lemma shift_loop_spec n s2 (a : list key) :
  s2 < n -> n <= length a ->
  shift_loop n s2 a = Some (take 1 a ++ take s2 a ++ drop (S s2) a).
Proof.
  revert a. induction s2 as [|s1 IH]; intros a Hs Hn.
  - cbn [shift_loop]. rewrite take_0. cbn [app]. f_equal.
    symmetry. apply take_drop.
  - cbn [shift_loop]. rewrite decide_True by done.
    destruct (lookup_lt_is_Some_2 a s1) as [k Hk]; [lia|].
    destruct (lookup_lt_is_Some_2 a (S s1)) as [x Hx]; [lia|].
    rewrite Hk, IH by (rewrite ?length_insert; lia).
    rewrite !take_insert_ge by lia.
    rewrite drop_insert_ge by lia.
    rewrite Nat.sub_diag, (drop_S a x (S s1)) by done. cbn [insert list_insert].
    rewrite (take_S_r a s1 k) by done.
    rewrite <- !app_assoc. reflexivity.
Qed.

Lemma take_cons_take {A} n (x : A) l :
  take n (x :: take n l) = take n (x :: l).
Proof.
  destruct n as [|m]; [done|]. cbn [take]. rewrite take_take.
  by rewrite Nat.min_l by lia.
Qed.

Lemma ring_front (a : list key) l r :
  0 < l <= length a ->
  take l (<[0:=r]> (take 1 a ++ take (l - 1) a ++ drop (S (l - 1)) a))
    = r :: take (l - 1) a
  /\ length (<[0:=r]> (take 1 a ++ take (l - 1) a ++ drop (S (l - 1)) a))
    = length a.
Proof.
  intros Hl. destruct a as [|k0 a]; [cbn in Hl; lia|].
  destruct l as [|m]; [lia|]. cbn [length] in Hl.
  replace (S m - 1) with m by lia.
  change (take 1 (k0 :: a)) with [k0]. cbn [app insert list_insert].
  split.
  - cbn [take]. f_equal. apply take_app_length'.
    rewrite length_take. cbn [length]. lia.
  - cbn [length]. rewrite length_app, length_take, length_drop.
    cbn [length]. lia.
Qed.

(** One rotation with a fresh key [r]: the key goes to the front, the ring
    grows by one below capacity and drops its last key at capacity, and the
    TLS configuration gets the new list. *)
Lemma rotate_once_ok cfg ks r :
  0 < len ks <= cap ks ->
  exists cfg' ks',
    rotate_once cfg ks (RandOk r) = Rotated cfg' ks'
    /\ visible ks' = take (cap ks) (r :: visible ks)
    /\ sessionTicketKeys cfg' = visible ks'
    /\ cap ks' = cap ks
    /\ 0 < len ks' <= cap ks'.
Proof.
  intros Hlen. unfold rotate_once.
  set (ks1 := if decide (len ks < cap ks)
              then KeySlice (arr ks) (len ks + 1) else ks).
  assert (Hks1 : arr ks1 = arr ks /\ 0 < len ks1 <= length (arr ks)
                 /\ len ks1 - 1 = Nat.min (len ks) (length (arr ks) - 1)).
  { subst ks1. unfold cap in *.
    case_decide; cbn [arr len]; (split; [done|lia]). }
  destruct Hks1 as (Harr & Hl1 & Hl1').
  rewrite Harr. unfold cap in *.
  rewrite shift_loop_spec by lia.
  rewrite decide_True by lia.
  destruct (ring_front (arr ks) (len ks1) r Hl1) as [Hfront Hlength].
  eexists _, _. split; [reflexivity|].
  unfold SetSessionTicketKeys, visible, cap.
  cbn [arr len sessionTicketKeys].
  rewrite Hlength, Hfront, Hl1'.
  split; [|split; [done|split; [done|lia]]].
  destruct (length (arr ks)) as [|n] eqn:En; [lia|].
  cbn [take]. f_equal. rewrite take_take. f_equal. lia.
Qed.

(** A failed [rand.Read] during a rotation ends the process. *)
Lemma rotate_once_fatal cfg ks msg :
  0 < len ks <= cap ks ->
  rotate_once cfg ks (RandErr msg) = Fatal msg.
Proof.
  intros Hlen. unfold rotate_once.
  set (ks1 := if decide (len ks < cap ks)
              then KeySlice (arr ks) (len ks + 1) else ks).
  assert (Hks1 : arr ks1 = arr ks /\ 0 < len ks1 <= length (arr ks)).
  { subst ks1. unfold cap in *.
    case_decide; cbn [arr len]; (split; [done|lia]). }
  destruct Hks1 as (Harr & Hl1).
  rewrite Harr, shift_loop_spec by lia.
  by rewrite decide_True by lia.
Qed.

Lemma take_app_take {A} n (l1 l2 : list A) :
  take n (l1 ++ take n l2) = take n (l1 ++ l2).
Proof.
  rewrite !take_app, take_take. do 2 f_equal. lia.
Qed.

Lemma visible_length ks : length (visible ks) <= cap ks.
Proof. unfold visible, cap. rewrite length_take. lia. Qed.

(** The ring after the rotations that draw the keys [rs], oldest first. *)
Lemma rotate_ok cfg ks rs :
  0 < len ks <= cap ks ->
  sessionTicketKeys cfg = visible ks ->
  exists cfg' ks',
    rotateSessionTicketKeys cfg ks (map RandOk rs) = Rotated cfg' ks'
    /\ visible ks' = take (cap ks) (rev rs ++ visible ks)
    /\ sessionTicketKeys cfg' = visible ks'
    /\ cap ks' = cap ks
    /\ 0 < len ks' <= cap ks'.
Proof.
  revert cfg ks. induction rs as [|r rs IH]; intros cfg ks Hlen Hcfg.
  - exists cfg, ks. cbn [map rotateSessionTicketKeys rev app].
    rewrite take_ge by apply visible_length. repeat split; first [done | lia].
  - cbn [map rotateSessionTicketKeys].
    destruct (rotate_once_ok cfg ks r Hlen)
      as (cfg1 & ks1 & -> & Hvis1 & Hcfg1 & Hcap1 & Hlen1).
    destruct (IH cfg1 ks1 Hlen1 Hcfg1)
      as (cfg' & ks' & -> & Hvis & Hcfg' & Hcap & Hlen').
    exists cfg', ks'. split; [done|].
    split; [|repeat split; first [done | lia]].
    rewrite Hvis, Hvis1, Hcap1.
    cbn [rev]. rewrite <- app_assoc. cbn [app]. apply take_app_take.
Qed.

(** The rotation stops for good at the first failed [rand.Read], whatever
    the source of randomness would have answered later. *)
Lemma rotate_fatal cfg ks rs msg later :
  0 < len ks <= cap ks ->
  rotateSessionTicketKeys cfg ks (map RandOk rs ++ RandErr msg :: later)
    = Fatal msg.
Proof.
  revert cfg ks. induction rs as [|r rs IH]; intros cfg ks Hlen.
  - cbn. by rewrite rotate_once_fatal.
  - cbn [map app rotateSessionTicketKeys].
    destruct (rotate_once_ok cfg ks r Hlen) as (cfg1 & ks1 & -> & _ & _ & _ & Hlen1).
    by apply IH.
Qed.

End KeyRingFacts.

(** ** Initialisation *)

Module InitFacts.

Import Proxy.

Section Init.

Variable quote : string -> string.
Variable range_order : nat -> gmap string string -> list (string * string).

#[local] Abbreviation init := (init quote range_order).
#[local] Abbreviation range_protos := (range_protos quote range_order).

(** The loop over [p.Protos] as [init] enters it. *)
Definition protos_loop (w : world) : loop_state * outcome :=
  range_protos 0 (Protos (px w)) (LoopState ∅ (hostmaps w) [] []).

(** The first key slice: one key drawn, room for 96. *)
Definition first_keys (k : key) : key_slice :=
  KeySlice (<[0 := k]> (repeat zero_key 96)) 1.

Lemma first_keys_visible k : visible (first_keys k) = [k].
Proof. reflexivity. Qed.

Lemma first_keys_cap k : cap (first_keys k) = 96.
Proof. reflexivity. Qed.

(** What a call of [init] that returns [nil] went through and left. *)
Lemma init_Nil_inv w rnd w' :
  init w rnd = (w', Nil) ->
  exists s r k,
    DefaultProto (px w) ≠ ""
    /\ protos_loop w = (s, Nil)
    /\ ls_backends s !! DefaultProto (px w) = Some r
    /\ CacheDir (px w) ≠ ""
    /\ rnd = RandOk k
    /\ backends (px w') = <["" := r]> (ls_backends s)
    /\ hostmaps w' = ls_hostmaps s
    /\ config (px w') =
         Some (TlsConfig true VersionTLS12 (ls_next s) [k])
    /\ manager (px w') =
         Some (Manager (ls_hosts s) (CacheDir (px w)) (Email (px w))
                       15000000000)
    /\ rotator w' = Some (first_keys k)
    /\ Protos (px w') = Protos (px w)
    /\ DefaultProto (px w') = DefaultProto (px w).
Proof.
  unfold init, protos_loop. cbn [DefaultProto Protos CacheDir Email].
  intros Hinit.
  destruct (decide (DefaultProto (px w) = "")) as [|Hdp]; [done|].
  destruct (range_protos 0 _ _) as [s [| |]]; try done.
  destruct (ls_backends s !! DefaultProto (px w)) as [r|] eqn:Hr; [|done].
  destruct (decide (CacheDir (px w) = "")) as [|Hcd]; [done|].
  destruct rnd as [k|msg]; [|done].
  injection Hinit as <-. exists s, r, k. cbn. done.
Qed.

(** Its converse: when the checks pass and the key is drawn, [init]
    returns [nil]. *)
Lemma init_Nil w s r k :
  DefaultProto (px w) ≠ "" ->
  protos_loop w = (s, Nil) ->
  ls_backends s !! DefaultProto (px w) = Some r ->
  CacheDir (px w) ≠ "" ->
  (init w (RandOk k)).2 = Nil.
Proof.
  unfold init, protos_loop. cbn [DefaultProto Protos CacheDir Email].
  intros Hdp -> -> Hcd. by rewrite !decide_False by done.
Qed.

(** With the checks passed, a failed [rand.Read] makes [init] return the
    key-generation error, with no key installed and no rotation started. *)
Lemma init_KeyGenFailed w s r msg :
  DefaultProto (px w) ≠ "" ->
  protos_loop w = (s, Nil) ->
  ls_backends s !! DefaultProto (px w) = Some r ->
  CacheDir (px w) ≠ "" ->
  exists w',
    init w (RandErr msg) = (w', Error (KeyGenFailed msg))
    /\ rotator w' = rotator w
    /\ (config (px w') ≫= fun cfg => Some (sessionTicketKeys cfg)) = Some [].
Proof.
  unfold init, protos_loop. cbn [DefaultProto Protos CacheDir Email].
  intros Hdp -> -> Hcd. rewrite !decide_False by done.
  eexists. split; [reflexivity|]. done.
Qed.

(** Whatever the configuration, [init] does not return [nil] when
    [rand.Read] fails. *)
Lemma init_RandErr w msg : (init w (RandErr msg)).2 ≠ Nil.
Proof.
  unfold init. cbn [DefaultProto Protos CacheDir Email].
  repeat (case_match; try done).
Qed.

End Init.

End InitFacts.

(** ** A configuration to run the definitions on *)

Module Example.

Import Proxy.

(** Two protocols behind one port; [h2] is the default. *)
Definition example_proxy : proxy :=
  MkProxy [] "admin@a.example" "/var/cache/tlsmuxd"
    [ProtoDef "h2" {[ "a.example" := "127.0.0.1:9001" ]};
     ProtoDef "http/1.1" (<[ "b.example" := "127.0.0.1:9002" ]>
                            {[ "a.example" := "127.0.0.1:9003" ]})]
    "h2" ∅ None None.

Definition example_world : world := World example_proxy [] None.

(** One iteration order: the one [map_to_list] gives. *)
Definition listed (i : nat) (m : gmap string string) : list (string * string) :=
  map_to_list m.

Definition key_of (b : Byte.byte) : key := repeat b 32.

(** The same with three faults: an empty address in the second protocol
    definition, a default protocol that is not defined, no cache
    directory. *)
Definition faulty_proxy : proxy :=
  MkProxy [] "admin@a.example" ""
    [ProtoDef "h2" {[ "a.example" := "127.0.0.1:9001" ]};
     ProtoDef "http/1.1" {[ "b.example" := "" ]}]
    "spdy/3" ∅ None None.

Example faulty_proxy_first_error :
  (init id listed (World faulty_proxy [] None) (RandOk (key_of Byte.x01))).2
    = Error (HostAddrEmpty 1 "b.example")
  /\ message id (HostAddrEmpty 1 "b.example")
     = "protos[1].hosts.b.example is empty".
Proof. vm_compute. split; reflexivity. Qed.

End Example.

(** ** Session-ticket keys from start-up on *)

Module SessionKeys.

Import Proxy KeyRingFacts InitFacts Example.

(** C3. The key ring starts, in [init], with the one key drawn there; each
    rotation puts its fresh key in front and, only at the capacity of 96,
    drops the oldest. After the rotations drawing [rs] the ring (and the
    key list installed in the TLS configuration) is the newest 96 of the
    keys drawn so far, newest first: all [K+1] of them when [K < 96], and 96
    of them from then on, each further rotation dropping the last one. *)
Theorem key_ring_rotation (quote : string -> string)
    (range_order : nat -> gmap string string -> list (string * string))
    (w w' : world) (k0 : key) (rs : list key) :
  init quote range_order w (RandOk k0) = (w', Nil) ->
  exists cfg ks,
    config (px w') = Some cfg /\ rotator w' = Some ks
    /\ sessionTicketKeys cfg = [k0] /\ visible ks = [k0] /\ cap ks = 96
    /\ exists cfg' ks',
        rotateSessionTicketKeys cfg ks (map RandOk rs) = Rotated cfg' ks'
        /\ visible ks' = take 96 (rev rs ++ [k0])
        /\ sessionTicketKeys cfg' = visible ks'
        /\ (length rs < 96 ->
            visible ks' = rev rs ++ [k0]
            /\ length (visible ks') = S (length rs))
        /\ (96 <= S (length rs) -> length (visible ks') = 96)
        /\ forall r, exists cfg'' ks'',
            rotate_once cfg' ks' (RandOk r) = Rotated cfg'' ks''
            /\ sessionTicketKeys cfg'' = visible ks''
            /\ visible ks'' =
                 if decide (length (visible ks') < 96)
                 then r :: visible ks'
                 else r :: removelast (visible ks').
Proof.
  intros (s & r0 & k & _ & _ & _ & _ & [= <-] & _ & _ & Hcfg & _ & Hrot & _)
    %init_Nil_inv.
  eexists _, _. split; [exact Hcfg|]. split; [exact Hrot|].
  cbn [sessionTicketKeys]. rewrite first_keys_visible, first_keys_cap.
  do 3 (split; [done|]).
  destruct (rotate_ok (TlsConfig true VersionTLS12 (ls_next s) [k0])
              (first_keys k0) rs) as (cfg' & ks' & Hrun & Hvis & Hinst & Hcap & Hlen);
    [cbn; lia | done |].
  rewrite first_keys_visible, first_keys_cap in *.
  exists cfg', ks'. split; [done|]. split; [done|]. split; [done|].
  assert (Hall : length (rev rs ++ [k0]) = S (length rs)).
  { rewrite length_app, length_rev. cbn. lia. }
  split; [|split].
  - intros HK. rewrite Hvis, take_ge by lia. done.
  - intros HK. rewrite Hvis, length_take. lia.
  - intros r.
    destruct (rotate_once_ok cfg' ks' r Hlen)
      as (cfg'' & ks'' & Hone & Hvis' & Hinst' & _ & _).
    exists cfg'', ks''. split; [done|]. split; [done|].
    rewrite Hvis', Hcap.
    assert (Hle : length (visible ks') <= 96)
      by (rewrite Hvis, length_take; lia).
    case_decide as Hfull.
    + apply take_ge. cbn [length]. lia.
    + assert (Hfull' : length (visible ks') = 96) by lia.
      rewrite removelast_firstn_len, Hfull'. reflexivity.
Qed.

Lemma key_ring_rotation_witness :
  exists cfg ks,
    config (px (init id listed example_world (RandOk (key_of Byte.x01))).1)
      = Some cfg
    /\ rotator (init id listed example_world (RandOk (key_of Byte.x01))).1
      = Some ks
    /\ sessionTicketKeys cfg = [key_of Byte.x01]
    /\ visible ks = [key_of Byte.x01] /\ cap ks = 96
    /\ exists cfg' ks',
        rotateSessionTicketKeys cfg ks
          (map RandOk [key_of Byte.x02; key_of Byte.x03]) = Rotated cfg' ks'
        /\ visible ks' =
             [key_of Byte.x03; key_of Byte.x02; key_of Byte.x01].
Proof.
  destruct (key_ring_rotation id listed example_world
              (init id listed example_world (RandOk (key_of Byte.x01))).1
              (key_of Byte.x01) [key_of Byte.x02; key_of Byte.x03])
    as (cfg & ks & H1 & H2 & H3 & H4 & H5 & cfg' & ks' & H6 & H7 & _).
  { vm_compute. reflexivity. }
  exists cfg, ks. do 5 (split; [assumption|]).
  exists cfg', ks'. split; [assumption|]. exact H7.
Defined.

(** C7. A failed [rand.Read] is fatal both times it can happen. In [init]
    the call never returns [nil]; with the configuration in order it
    returns the key-generation error, installs no key and starts no
    rotation, and [main] exits before it listens. In the rotation loop the first failure ends the process (the
    [log.Fatalf]): no key list is installed for that tick and nothing is
    drawn again, whatever the source would have answered later. *)
Theorem randomness_failure_fatal (quote : string -> string)
    (range_order : nat -> gmap string string -> list (string * string))
    (w w0 : world) (k0 : key) (msg : string)
    (rs : list key) (later : list rand_result) :
  init quote range_order w (RandOk k0) = (w0, Nil) ->
  (init quote range_order w (RandErr msg)).2 = Error (KeyGenFailed msg)
  /\ rotator (init quote range_order w (RandErr msg)).1 = rotator w
  /\ (config (px (init quote range_order w (RandErr msg)).1)
        ≫= fun cfg => Some (sessionTicketKeys cfg)) = Some []
  /\ (forall w1 msg1, (init quote range_order w1 (RandErr msg1)).2 ≠ Nil)
  /\ (forall listen,
        Main.main quote range_order w (RandErr msg) listen = Main.Exited 1)
  /\ exists cfg ks,
      config (px w0) = Some cfg /\ rotator w0 = Some ks
      /\ rotate_once cfg ks (RandErr msg) = Fatal msg
      /\ rotateSessionTicketKeys cfg ks (map RandOk rs ++ RandErr msg :: later)
           = Fatal msg.
Proof.
  intros (s & r0 & k & Hdp & Hloop & Hr & Hcd & [= <-] & _ & _ & Hcfg & _ & Hrot & _)
    %init_Nil_inv.
  destruct (init_KeyGenFailed quote range_order w s r0 msg Hdp Hloop Hr Hcd)
    as (w' & -> & Hrot' & Hkeys).
  cbn [fst snd]. do 3 (split; [done|]).
  split; [intros w1 msg1; apply init_RandErr|].
  split.
  { intros listen. unfold Main.main.
    destruct (init_KeyGenFailed quote range_order w s r0 msg Hdp Hloop Hr Hcd)
      as (w'' & -> & _). done. }
  eexists _, _. split; [exact Hcfg|]. split; [exact Hrot|].
  split.
  - apply rotate_once_fatal. cbn. lia.
  - apply rotate_fatal. cbn. lia.
Qed.

Lemma randomness_failure_fatal_witness :
  (init id listed example_world (RandErr "EAGAIN")).2
    = Error (KeyGenFailed "EAGAIN")
  /\ rotator (init id listed example_world (RandErr "EAGAIN")).1 = None.
Proof.
  destruct (randomness_failure_fatal id listed example_world
              (init id listed example_world (RandOk (key_of Byte.x01))).1
              (key_of Byte.x01) "EAGAIN" [key_of Byte.x02] [])
    as (H1 & H2 & _).
  { vm_compute. reflexivity. }
  split; [exact H1 | exact H2].
Defined.

End SessionKeys.

(** ** Validation and the routing table *)

Module Validation.

Import Proxy InitFacts.

(** The first of a list of violations as the outcome of a check. *)
Definition first_error (vs : list init_error) : outcome :=
  match vs with
  | e :: _ => Error e
  | [] => Nil
  end.

Lemma first_error_app vs1 vs2 :
  first_error (vs1 ++ vs2) =
    match first_error vs1 with Nil => first_error vs2 | stop => stop end.
Proof. by destruct vs1. Qed.

Lemma contains_spec strs s : contains strs s = true <-> s ∈ strs.
Proof.
  induction strs as [|s2 strs IH]; cbn [contains].
  - split; [done|]. by intros ?%elem_of_nil.
  - case_decide as Heq.
    + subst. split; [intros _; left | done].
    + rewrite IH. split; [by right|].
      intros [?|?]%elem_of_cons; done.
Qed.

Section Spec.

Variable quote : string -> string.
Variable range_order : nat -> gmap string string -> list (string * string).

#[local] Abbreviation label := (label quote).
#[local] Abbreviation range_hosts := (range_hosts quote).
#[local] Abbreviation range_protos := (range_protos quote range_order).
#[local] Abbreviation init := (init quote range_order).

(** *** The specification's side *)

(** The structural violations of one host entry, of one protocol
    definition and of a configuration, in the order in which the fields
    are read: the default protocol's presence, the protocol definitions
    one by one (name, host set, then the entries as they are iterated),
    the default protocol's definition, the cache directory. *)
Definition entry_violations (i : nat) (e : string * string) : list init_error :=
  (if decide (e.1 = "") then [HostKeyEmpty i] else [])
  ++ (if decide (e.2 = "") then [HostAddrEmpty i e.1] else []).

Definition proto_violations (i : nat) (pd : proto_def) : list init_error :=
  (if decide (Name pd = "") then [ProtoNameEmpty i] else [])
  ++ (if decide (Hosts pd = ∅) then [ProtoHostsEmpty i] else [])
  ++ flat_map (entry_violations i) (range_order i (Hosts pd)).

Definition violations (p : proxy) : list init_error :=
  (if decide (DefaultProto p = "") then [DefaultProtoEmpty] else [])
  ++ concat (imap proto_violations (Protos p))
  ++ (if decide (DefaultProto p ∈ Name <$> Protos p) then []
      else [DefaultProtoUndefined (DefaultProto p)])
  ++ (if decide (CacheDir p = "") then [CacheDirEmpty] else []).

(** The host map of a protocol definition: every host of [hosts] goes to
    the backend with its address, labelled by protocol and host. *)
Definition host_map (pname : string) (hosts : gmap string string)
    : gmap string backend :=
  map_imap (fun host addr => Some (Backend (label pname host) addr)) hosts.

(** The routing table of a list of protocol definitions: each name goes
    to the host map of its definition, the last one when a name comes
    more than once. *)
Definition table_of (protos : list proto_def)
    (start : gmap string (gmap string backend))
    : gmap string (gmap string backend) :=
  foldl (fun t pd => <[Name pd := host_map (Name pd) (Hosts pd)]> t)
        start protos.

(** The host names of a list of protocol definitions. *)
Definition hostnames (protos : list proto_def) : gset string :=
  ⋃ ((fun pd => dom (Hosts pd)) <$> protos).

(** *** The code's side *)

(** What routing reads in the table: the host map of a protocol name. *)
Definition route (bs : gmap string ref) (hm : list (gmap string backend))
    (np : string) : option (gmap string backend) :=
  bs !! np ≫= (hm !!.).

(** The entries [range_hosts] puts into the host map, and the hosts it
    appends to [hosts]. *)
Definition add_entries (pname : string) (entries : list (string * string))
    (m : gmap string backend) : gmap string backend :=
  foldl (fun m e => <[e.1 := Backend (label pname e.1) e.2]> m) m entries.

Definition add_hosts (hs : list string) (new : list string) : list string :=
  foldl (fun hs h => if contains hs h then hs else hs ++ [h]) hs new.

Lemma range_hosts_outcome i pname entries s :
  is_Some (ls_backends s !! pname) ->
  (range_hosts i pname entries s).2
    = first_error (flat_map (entry_violations i) entries).
Proof.
  revert s. induction entries as [|[host addr] entries IH]; intros s [r Hr].
  - done.
  - cbn [range_hosts flat_map]. unfold entry_violations at 1. cbn [fst snd].
    destruct (decide (host = "")) as [|Hh]; [done|].
    destruct (decide (addr = "")) as [|Ha]; [done|].
    rewrite Hr. cbn [app]. apply IH. cbn. eauto.
Qed.

Lemma range_hosts_Nil i pname entries s s' r :
  ls_backends s !! pname = Some r ->
  range_hosts i pname entries s = (s', Nil) ->
  s' = LoopState (ls_backends s)
         (alter (add_entries pname entries) r (ls_hostmaps s))
         (add_hosts (ls_hosts s) entries.*1) (ls_next s).
Proof.
  revert s. induction entries as [|[host addr] entries IH]; intros s Hr.
  - cbn. intros [= <-]. rewrite list_alter_id by done. by destruct s.
  - cbn [range_hosts].
    destruct (decide (host = "")) as [|Hh]; [done|].
    destruct (decide (addr = "")) as [|Ha]; [done|].
    rewrite Hr. intros Hrun. apply IH in Hrun; [|done].
    rewrite Hrun. cbn [ls_backends ls_hostmaps ls_hosts ls_next].
    f_equal. by rewrite list_alter_alter_eq.
Qed.

(** The host map built from the entries of [hosts], in whatever order
    they come, is the host map of the specification. *)
Lemma add_entries_lookup pname entries m host :
  NoDup entries.*1 ->
  add_entries pname entries m !! host =
    match list_to_map (M := gmap string string) entries !! host with
    | Some addr => Some (Backend (label pname host) addr)
    | None => m !! host
    end.
Proof.
  revert m. induction entries as [|[h a] entries IH]; intros m Hnd.
  - done.
  - cbn [add_entries foldl fst snd list_to_map]. cbn in Hnd.
    apply NoDup_cons in Hnd as [Hnotin Hnd].
    change (foldl _ ?m0 entries) with (add_entries pname entries m0).
    rewrite IH by done.
    destruct (decide (h = host)) as [->|Hne].
    + rewrite (not_elem_of_list_to_map_1 entries host) by done.
      cbn [list_to_map foldr uncurry fst snd]. by rewrite !lookup_insert_eq.
    + cbn [list_to_map foldr uncurry fst snd].
      by rewrite !lookup_insert_ne by done.
Qed.

Lemma add_hosts_elem hs new h :
  h ∈ add_hosts hs new <-> h ∈ hs \/ h ∈ new.
Proof.
  revert hs. induction new as [|x new IH]; intros hs; cbn [add_hosts foldl].
  - split; [by left|]. intros [?|?%elem_of_nil]; done.
  - change (foldl _ ?hs0 new) with (add_hosts hs0 new). rewrite IH.
    destruct (contains hs x) eqn:Hc.
    + apply contains_spec in Hc. rewrite elem_of_cons.
      split; [tauto|]. intros [?|[->|?]]; tauto.
    + rewrite elem_of_app, list_elem_of_singleton, elem_of_cons. tauto.
Qed.

Lemma add_hosts_NoDup hs new : NoDup hs -> NoDup (add_hosts hs new).
Proof.
  revert hs. induction new as [|x new IH]; intros hs Hnd; [done|].
  cbn [add_hosts foldl]. apply IH.
  destruct (contains hs x) eqn:Hc; [done|].
  apply NoDup_app. split; [done|]. split; [|apply NoDup_singleton].
  intros y Hy ->%list_elem_of_singleton.
  apply contains_spec in Hy. congruence.
Qed.

Lemma add_hosts_app hs new1 new2 :
  add_hosts hs (new1 ++ new2) = add_hosts (add_hosts hs new1) new2.
Proof. apply foldl_app. Qed.

(** A loop state is well formed when every protocol name refers to a
    host map of the store. *)
Definition wf (s : loop_state) : Prop :=
  forall n r, ls_backends s !! n = Some r -> r < length (ls_hostmaps s).

(** The state after the iteration for [pd], entered in [s], when no check
    of the iteration fails. *)
Definition after_proto (i : nat) (pd : proto_def) (s : loop_state)
    : loop_state :=
  LoopState (<[Name pd := length (ls_hostmaps s)]> (ls_backends s))
    (ls_hostmaps s
       ++ [add_entries (Name pd) (range_order i (Hosts pd)) ∅])
    (add_hosts (ls_hosts s) (range_order i (Hosts pd)).*1)
    (ls_next s ++ [Name pd]).

Lemma range_protos_cons i pd rest s :
  range_protos i (pd :: rest) s =
    match first_error (proto_violations i pd) with
    | Nil => range_protos (S i) rest (after_proto i pd s)
    | stop => ((range_protos i (pd :: rest) s).1, stop)
    end.
Proof.
  cbn [Proxy.range_protos]. unfold proto_violations.
  destruct (decide (Name pd = "")) as [|Hn]; [done|].
  destruct (decide (size (Hosts pd) = 0)) as [Hs|Hs];
    [rewrite decide_True by (by apply map_size_empty_iff); done|].
  rewrite decide_False by (by rewrite <- map_size_empty_iff).
  cbn [app].
  set (s1 := LoopState _ _ _ _).
  assert (Hr : ls_backends s1 !! Name pd = Some (length (ls_hostmaps s)))
    by apply lookup_insert_eq.
  pose proof (range_hosts_outcome i (Name pd) (range_order i (Hosts pd)) s1)
    as Hout.
  destruct (range_hosts i (Name pd) (range_order i (Hosts pd)) s1)
    as [s2 o] eqn:Hrun.
  cbn [snd] in Hout. rewrite <- Hout by eauto.
  destruct o; [|done..].
  apply (range_hosts_Nil _ _ _ _ _ _ Hr) in Hrun. subst s2.
  cbn [ls_backends ls_hostmaps ls_hosts ls_next]. f_equal.
  unfold after_proto. f_equal.
  subst s1. cbn [ls_hostmaps].
  rewrite alter_app_r_alt by done. by rewrite Nat.sub_diag.
Qed.

Lemma range_protos_outcome i protos s :
  (range_protos i protos s).2
    = first_error (concat (imap (fun j => proto_violations (i + j)) protos)).
Proof.
  revert i s. induction protos as [|pd rest IH]; intros i s; [done|].
  rewrite range_protos_cons, imap_cons. cbn [concat].
  rewrite first_error_app, Nat.add_0_r.
  destruct (first_error (proto_violations i pd)); [|done..].
  rewrite IH. do 2 f_equal. apply imap_ext. intros j x _. cbn.
  f_equal. lia.
Qed.

(** The state after the iterations for [protos], from index [i] on. *)
Fixpoint after_protos (i : nat) (protos : list proto_def) (s : loop_state)
    : loop_state :=
  match protos with
  | [] => s
  | pd :: rest => after_protos (S i) rest (after_proto i pd s)
  end.

Lemma range_protos_Nil i protos s s' :
  range_protos i protos s = (s', Nil) -> s' = after_protos i protos s.
Proof.
  revert i s. induction protos as [|pd rest IH]; intros i s.
  - cbn. congruence.
  - rewrite range_protos_cons.
    destruct (first_error (proto_violations i pd)); [|done..].
    apply IH.
Qed.

Lemma range_protos_clean i protos s :
  concat (imap (fun j => proto_violations (i + j)) protos) = [] ->
  range_protos i protos s = (after_protos i protos s, Nil).
Proof.
  intros Hclean. pose proof (range_protos_outcome i protos s) as Hout.
  rewrite Hclean in Hout.
  destruct (range_protos i protos s) as [s' o] eqn:Hrun. cbn in Hout.
  subst o. by rewrite (range_protos_Nil _ _ _ _ Hrun).
Qed.

Lemma after_protos_wf i protos s : wf s -> wf (after_protos i protos s).
Proof.
  revert i s. induction protos as [|pd rest IH]; intros i s Hwf; [done|].
  cbn [after_protos]. apply IH. intros n r. unfold after_proto.
  cbn [ls_backends ls_hostmaps]. rewrite length_app. cbn [length].
  destruct (decide (Name pd = n)) as [->|Hne].
  - rewrite lookup_insert_eq. intros [= <-]. lia.
  - rewrite lookup_insert_ne by done. intros Hr%Hwf. lia.
Qed.

Lemma after_protos_next i protos s :
  ls_next (after_protos i protos s) = ls_next s ++ (Name <$> protos).
Proof.
  revert i s. induction protos as [|pd rest IH]; intros i s.
  - cbn. by rewrite app_nil_r.
  - cbn [after_protos]. rewrite IH. cbn [after_proto ls_next fmap list_fmap].
    by rewrite <- app_assoc.
Qed.

Lemma after_protos_defined i protos s n :
  is_Some (ls_backends (after_protos i protos s) !! n)
  <-> is_Some (ls_backends s !! n) \/ n ∈ Name <$> protos.
Proof.
  revert i s. induction protos as [|pd rest IH]; intros i s.
  - cbn. split; [by left|]. intros [?|?%elem_of_nil]; done.
  - cbn [after_protos]. rewrite IH. cbn [after_proto ls_backends].
    rewrite fmap_cons, elem_of_cons.
    destruct (decide (Name pd = n)) as [->|Hne].
    + rewrite lookup_insert_eq. split; [intros _; right; by left|].
      intros _. left. eauto.
    + rewrite lookup_insert_ne by done. split; [tauto|].
      intros [?|[?|?]]; [tauto|congruence|tauto].
Qed.

Lemma after_protos_hosts_NoDup i protos s :
  NoDup (ls_hosts s) -> NoDup (ls_hosts (after_protos i protos s)).
Proof.
  revert i s. induction protos as [|pd rest IH]; intros i s Hnd; [done|].
  cbn [after_protos]. apply IH. cbn. by apply add_hosts_NoDup.
Qed.

Section Order.

(** The iteration takes every entry of the host map once. *)
Hypothesis range_order_perm :
  forall i m, range_order i m ≡ₚ map_to_list m.

Lemma range_order_NoDup i m : NoDup (range_order i m).*1.
Proof.
  rewrite range_order_perm. apply NoDup_fst_map_to_list.
Qed.

Lemma range_order_hosts i (m : gmap string string) h :
  h ∈ (range_order i m).*1 <-> h ∈ dom m.
Proof.
  rewrite range_order_perm, elem_of_dom, list_elem_of_fmap.
  split.
  - intros ([h' a] & -> & Hin%elem_of_map_to_list). eauto.
  - intros [a Ha]. exists (h, a). split; [done|].
    by apply elem_of_map_to_list.
Qed.

Lemma add_entries_host_map i pname hosts :
  add_entries pname (range_order i hosts) ∅ = host_map pname hosts.
Proof.
  apply map_eq. intros host.
  rewrite add_entries_lookup by apply range_order_NoDup.
  rewrite (list_to_map_proper _ (map_to_list hosts))
    by (apply range_order_NoDup || apply range_order_perm).
  rewrite list_to_map_to_list. unfold host_map.
  rewrite map_lookup_imap. by destruct (hosts !! host).
Qed.

Lemma after_protos_route i protos s t :
  wf s ->
  (forall n, route (ls_backends s) (ls_hostmaps s) n = t !! n) ->
  forall n,
    route (ls_backends (after_protos i protos s))
          (ls_hostmaps (after_protos i protos s)) n
      = table_of protos t !! n.
Proof.
  revert i s t. induction protos as [|pd rest IH]; intros i s t Hwf Ht;
    [done|].
  cbn [after_protos table_of foldl].
  apply IH; [by apply (after_protos_wf i [pd])|].
  intros n. unfold after_proto, route in *.
  cbn [ls_backends ls_hostmaps].
  destruct (decide (Name pd = n)) as [->|Hne].
  - rewrite !lookup_insert_eq. cbn.
    rewrite list_lookup_middle by done.
    by rewrite add_entries_host_map.
  - rewrite !lookup_insert_ne by done. rewrite <- Ht.
    destruct (ls_backends s !! n) as [r|] eqn:Hr; cbn; [|done].
    apply lookup_app_l. by eapply Hwf.
Qed.

Lemma after_protos_hosts i protos s h :
  h ∈ ls_hosts (after_protos i protos s)
  <-> h ∈ ls_hosts s \/ h ∈ hostnames protos.
Proof.
  revert i s. induction protos as [|pd rest IH]; intros i s.
  - cbn. unfold hostnames. cbn. rewrite elem_of_empty. tauto.
  - cbn [after_protos]. rewrite IH. cbn [after_proto ls_hosts].
    rewrite add_hosts_elem, range_order_hosts.
    unfold hostnames. rewrite fmap_cons. cbn [union_list foldr].
    rewrite elem_of_union. tauto.
Qed.

End Order.

(** *** [init] against the specification *)

Definition start_state (w : world) : loop_state :=
  LoopState ∅ (hostmaps w) [] [].

Lemma start_state_wf w : wf (start_state w).
Proof. intros n r. cbn. by rewrite lookup_empty. Qed.

(** The outcome of the draw of the first key. *)
Definition keygen_outcome (rnd : rand_result) : outcome :=
  match rnd with
  | RandOk _ => Nil
  | RandErr msg => Error (KeyGenFailed msg)
  end.

Lemma violations_nil_inv p :
  violations p = [] ->
  DefaultProto p ≠ ""
  /\ concat (imap (fun j => proto_violations (0 + j)) (Protos p)) = []
  /\ DefaultProto p ∈ Name <$> Protos p
  /\ CacheDir p ≠ "".
Proof.
  unfold violations. intros H.
  apply app_eq_nil in H as [H1 H]. apply app_eq_nil in H as [H2 H].
  apply app_eq_nil in H as [H3 H4].
  repeat case_decide; done.
Qed.

(** [init] returns the first violation of the configuration, if it has
    one, and the outcome of the key generation otherwise. *)
Lemma init_outcome w rnd :
  (init w rnd).2 =
    match first_error (violations (px w)) with
    | Nil => keygen_outcome rnd
    | stop => stop
    end.
Proof.
  unfold Proxy.init, violations. cbn [DefaultProto Protos CacheDir Email].
  destruct (decide (DefaultProto (px w) = "")) as [|Hdp]; [done|].
  cbn [app]. rewrite first_error_app.
  pose proof (range_protos_outcome 0 (Protos (px w)) (start_state w)) as Hout.
  change (fun j => proto_violations (0 + j)) with proto_violations in Hout.
  rewrite <- Hout. unfold start_state.
  destruct (range_protos 0 _ _) as [s o] eqn:Hrun. cbn [snd].
  destruct o; [|done..].
  apply range_protos_Nil in Hrun. rewrite first_error_app.
  pose proof (after_protos_defined 0 (Protos (px w)) (start_state w)
                (DefaultProto (px w))) as Hdef.
  fold (start_state w) in Hrun. rewrite <- Hrun in Hdef.
  cbn [start_state ls_backends] in Hdef. rewrite lookup_empty in Hdef.
  destruct (decide (DefaultProto (px w) ∈ Name <$> Protos (px w)))
    as [Hin|Hnin].
  - destruct (proj2 Hdef) as [r ->]; [by right|]. cbn [first_error].
    destruct (decide (CacheDir (px w) = "")) as [|Hcd]; [done|].
    by destruct rnd.
  - destruct (ls_backends s !! DefaultProto (px w)) as [r|] eqn:Hr; [|done].
    destruct (proj1 Hdef) as [[? [=]]|?]; by eauto.
Qed.

(** The state [init] leaves when the configuration has no violation,
    whatever the key generation does. *)
Lemma init_valid_state w rnd :
  violations (px w) = [] ->
  exists r,
    ls_backends (after_protos 0 (Protos (px w)) (start_state w))
      !! DefaultProto (px w) = Some r
    /\ backends (px (init w rnd).1) =
         <["" := r]> (ls_backends
                        (after_protos 0 (Protos (px w)) (start_state w)))
    /\ hostmaps (init w rnd).1 =
         ls_hostmaps (after_protos 0 (Protos (px w)) (start_state w))
    /\ manager (px (init w rnd).1) =
         Some (Manager
                 (ls_hosts (after_protos 0 (Protos (px w)) (start_state w)))
                 (CacheDir (px w)) (Email (px w)) 15000000000)
    /\ (NextProtos <$> config (px (init w rnd).1)) =
         Some (Name <$> Protos (px w))
    /\ Protos (px (init w rnd).1) = Protos (px w)
    /\ DefaultProto (px (init w rnd).1) = DefaultProto (px w).
Proof.
  intros (Hdp & Hclean & Hin & Hcd)%violations_nil_inv.
  pose proof (range_protos_clean 0 (Protos (px w)) (start_state w) Hclean)
    as Hrun.
  set (s := after_protos 0 (Protos (px w)) (start_state w)) in *.
  destruct (proj2 (after_protos_defined 0 (Protos (px w)) (start_state w)
                     (DefaultProto (px w)))) as [r Hr]; [by right|].
  fold s in Hr. exists r. split; [done|].
  assert (Hnext : ls_next s = Name <$> Protos (px w))
    by (subst s; by rewrite after_protos_next).
  unfold Proxy.init. cbn [DefaultProto Protos CacheDir Email].
  rewrite decide_False by done.
  unfold start_state in Hrun. rewrite Hrun, Hr.
  rewrite decide_False by done.
  destruct rnd; cbn; rewrite Hnext; done.
Qed.

(** The routing table of a configuration: the table of its protocol
    definitions, and under the empty protocol name the host map of the
    default protocol. *)
Definition routing_table (p : proxy) : gmap string (gmap string backend) :=
  let t := table_of (Protos p) ∅ in
  match t !! DefaultProto p with
  | Some hm => <["" := hm]> t
  | None => t
  end.

Lemma init_valid_wf w rnd :
  violations (px w) = [] ->
  forall n r,
    backends (px (init w rnd).1) !! n = Some r ->
    r < length (hostmaps (init w rnd).1).
Proof.
  intros Hv n r.
  destruct (init_valid_state w rnd Hv) as (r0 & Hr0 & -> & -> & _).
  pose proof (after_protos_wf 0 (Protos (px w)) _ (start_state_wf w)) as Hwf.
  destruct (decide (n = "")) as [->|Hne].
  - rewrite lookup_insert_eq. intros [= <-]. by eapply Hwf.
  - rewrite lookup_insert_ne by done. apply Hwf.
Qed.

Section Order.

(** The iteration takes every entry of the host map once. *)
Hypothesis range_order_perm :
  forall i m, range_order i m ≡ₚ map_to_list m.

Lemma init_valid_route w rnd :
  violations (px w) = [] ->
  forall n,
    route (backends (px (init w rnd).1)) (hostmaps (init w rnd).1) n
      = routing_table (px w) !! n.
Proof.
  intros Hv n.
  destruct (init_valid_state w rnd Hv) as (r & Hr & -> & -> & _).
  pose proof (after_protos_wf 0 (Protos (px w)) _ (start_state_wf w)) as Hwf.
  pose proof (after_protos_route range_order_perm 0 (Protos (px w))
                (start_state w) ∅ (start_state_wf w)) as Hroute.
  set (s := after_protos 0 (Protos (px w)) (start_state w)) in *.
  assert (Hroute' : forall n, route (ls_backends s) (ls_hostmaps s) n
                              = table_of (Protos (px w)) ∅ !! n).
  { apply Hroute. intros n'. unfold route. cbn. by rewrite !lookup_empty. }
  destruct (lookup_lt_is_Some_2 (ls_hostmaps s) r) as [hm Hhm];
    [by eapply Hwf|].
  unfold routing_table. rewrite <- (Hroute' (DefaultProto (px w))).
  unfold route at 2. rewrite Hr. cbn. rewrite Hhm.
  unfold route. destruct (decide (n = "")) as [->|Hne].
  - rewrite !lookup_insert_eq. cbn. done.
  - rewrite !lookup_insert_ne by done. apply Hroute'.
Qed.

Lemma init_valid_hosts w rnd :
  violations (px w) = [] ->
  exists mgr,
    manager (px (init w rnd).1) = Some mgr
    /\ NoDup (HostPolicy mgr)
    /\ forall h, h ∈ HostPolicy mgr <-> h ∈ hostnames (Protos (px w)).
Proof.
  intros Hv.
  destruct (init_valid_state w rnd Hv) as (r & _ & _ & _ & -> & _).
  eexists. split; [done|]. cbn [HostPolicy]. split.
  - apply after_protos_hosts_NoDup. cbn. apply NoDup_nil_2.
  - intros h. rewrite after_protos_hosts by done. cbn.
    split; [intros [?%elem_of_nil|?]; done | by right].
Qed.

End Order.

End Spec.

(** C6. [init] checks the configuration field by field and returns the
    error of the first structural violation it meets (default protocol
    missing, a protocol name empty, a host set empty, a host name empty, a
    backend address empty, the default protocol undefined, the cache
    directory missing), each error naming its field. On a configuration
    with no violation it builds the routing table and the list of the
    distinct host names of the configuration, and returns [nil] as soon as
    the first session key can be drawn. *)
Theorem init_reports_first_violation (quote : string -> string)
    (range_order : nat -> gmap string string -> list (string * string))
    (w : world) (rnd : rand_result) :
  (forall i m, range_order i m ≡ₚ map_to_list m) ->
  (forall e rest,
     violations range_order (px w) = e :: rest ->
     (init quote range_order w rnd).2 = Error e)
  /\ (violations range_order (px w) = [] ->
      (init quote range_order w rnd).2 = keygen_outcome rnd
      /\ (forall n,
            route (backends (px (init quote range_order w rnd).1))
                  (hostmaps (init quote range_order w rnd).1) n
              = routing_table quote (px w) !! n)
      /\ exists mgr,
          manager (px (init quote range_order w rnd).1) = Some mgr
          /\ NoDup (HostPolicy mgr)
          /\ forall h, h ∈ HostPolicy mgr <-> h ∈ hostnames (Protos (px w))).
Proof.
  intros Hperm. split.
  - intros e rest Hv. by rewrite init_outcome, Hv.
  - intros Hv. split; [by rewrite init_outcome, Hv|].
    split; [by apply init_valid_route | by apply init_valid_hosts].
Qed.

Lemma init_reports_first_violation_witness :
  (init id Example.listed Example.example_world (RandOk zero_key)).2 = Nil
  /\ route (backends (px (init id Example.listed Example.example_world
                               (RandOk zero_key)).1))
           (hostmaps (init id Example.listed Example.example_world
                           (RandOk zero_key)).1) ""
       = routing_table id (px Example.example_world) !! "".
Proof.
  destruct (init_reports_first_violation id Example.listed
              Example.example_world (RandOk zero_key)) as [_ Hvalid].
  { intros i m. reflexivity. }
  destruct Hvalid as (Hnil & Hroute & _).
  { vm_compute. reflexivity. }
  split; [exact Hnil | exact (Hroute "")].
Defined.

(** C2. After an [init] that returned [nil], the routing table holds under
    the empty protocol name the very host map it holds under the default
    protocol name (the same reference into the store, to an existing host
    map), so routing a server name under the one and under the other finds
    the same backend or fails alike. *)
Theorem default_proto_alias (quote : string -> string)
    (range_order : nat -> gmap string string -> list (string * string))
    (w w' : world) (rnd : rand_result) :
  init quote range_order w rnd = (w', Nil) ->
  backends (px w') !! "" = backends (px w') !! DefaultProto (px w')
  /\ (exists r hm, backends (px w') !! "" = Some r
                   /\ hostmaps w' !! r = Some hm)
  /\ route (backends (px w')) (hostmaps w') ""
       = route (backends (px w')) (hostmaps w') (DefaultProto (px w'))
  /\ forall raddr sn,
       (Relay.handle w' raddr (Relay.ConnectionState "" sn)).2
         = (Relay.handle w' raddr
              (Relay.ConnectionState (DefaultProto (px w')) sn)).2.
Proof.
  intros Hinit.
  assert (Hv : violations range_order (px w) = []).
  { pose proof (init_outcome quote range_order w rnd) as Hout.
    rewrite Hinit in Hout. cbn [snd] in Hout.
    destruct (violations range_order (px w)); [done|discriminate Hout]. }
  pose proof (init_valid_wf quote range_order w rnd Hv) as Hwf.
  rewrite Hinit in Hwf. cbn [fst] in Hwf.
  apply init_Nil_inv in Hinit
    as (s & r & k & Hdp & _ & Hr & _ & _ & Hb & _ & _ & _ & _ & _ & Hdp').
  assert (Halias : backends (px w') !! ""
                   = backends (px w') !! DefaultProto (px w')).
  { rewrite Hdp', Hb, lookup_insert_eq, lookup_insert_ne by done. done. }
  assert (Hempty : backends (px w') !! "" = Some r)
    by (by rewrite Hb, lookup_insert_eq).
  split; [done|]. split.
  - destruct (lookup_lt_is_Some_2 (hostmaps w') r) as [hm Hhm];
      [by eapply Hwf|]. eauto.
  - unfold route, Relay.handle. rewrite <- Halias. split; [done|].
    intros raddr sn. by destruct (_ ≫= lookup sn).
Qed.

Lemma default_proto_alias_witness :
  backends (px (init id Example.listed Example.example_world
                     (RandOk zero_key)).1) !! ""
    = backends (px (init id Example.listed Example.example_world
                         (RandOk zero_key)).1) !! "h2".
Proof.
  apply (default_proto_alias id Example.listed Example.example_world
           (init id Example.listed Example.example_world (RandOk zero_key)).1
           (RandOk zero_key)).
  vm_compute. reflexivity.
Defined.

(** C10. After an [init] that returned [nil], the table has a host map
    under the empty protocol name and under every protocol name the TLS
    configuration advertises; so for a connection that negotiated one of
    these the first lookup of the handler yields a host map, and the
    handler fails to route exactly when the server name is not in it. *)
Theorem negotiated_protocol_defined (quote : string -> string)
    (range_order : nat -> gmap string string -> list (string * string))
    (w w' : world) (rnd : rand_result) (cfg : tls_config) (np : string) :
  init quote range_order w rnd = (w', Nil) ->
  config (px w') = Some cfg ->
  np = "" \/ np ∈ NextProtos cfg ->
  exists r hm,
    backends (px w') !! np = Some r
    /\ hostmaps w' !! r = Some hm
    /\ forall raddr sn,
        Relay.handle w' raddr (Relay.ConnectionState np sn) =
          match hm !! sn with
          | Some b => ([], Some b)
          | None =>
            ([Relay.ALog (Relay.UnableToFind np sn raddr);
              Relay.AClose Relay.RawClient], None)
          end.
Proof.
  intros Hinit Hcfg Hnp.
  assert (Hv : violations range_order (px w) = []).
  { pose proof (init_outcome quote range_order w rnd) as Hout.
    rewrite Hinit in Hout. cbn [snd] in Hout.
    destruct (violations range_order (px w)); [done|discriminate Hout]. }
  pose proof (init_valid_wf quote range_order w rnd Hv) as Hwf.
  rewrite Hinit in Hwf. cbn [fst] in Hwf.
  apply init_Nil_inv in Hinit
    as (s & r0 & k & _ & Hloop & _ & _ & _ & Hb & _ & Hcfg' & _).
  rewrite Hcfg in Hcfg'. injection Hcfg' as ->. cbn [NextProtos] in Hnp.
  apply range_protos_Nil in Hloop. 
  assert (Hdef : is_Some (backends (px w') !! np)).
  { rewrite Hb. destruct (decide (np = "")) as [->|Hne].
    - rewrite lookup_insert_eq. eauto.
    - rewrite lookup_insert_ne by done. destruct Hnp as [?|Hin]; [done|].
      rewrite Hloop, after_protos_next in Hin. cbn in Hin.
      rewrite Hloop. apply after_protos_defined. by right. }
  destruct Hdef as [r Hr].
  destruct (lookup_lt_is_Some_2 (hostmaps w') r) as [hm Hhm];
    [by eapply Hwf|].
  exists r, hm. split; [done|]. split; [done|].
  intros raddr sn. unfold Relay.handle. rewrite Hr. cbn. rewrite Hhm. cbn.
  done.
Qed.

Lemma negotiated_protocol_defined_witness :
  exists r hm,
    backends (px (init id Example.listed Example.example_world
                       (RandOk zero_key)).1) !! "http/1.1" = Some r
    /\ hostmaps (init id Example.listed Example.example_world
                      (RandOk zero_key)).1 !! r = Some hm.
Proof.
  destruct (negotiated_protocol_defined id Example.listed
              Example.example_world
              (init id Example.listed Example.example_world
                    (RandOk zero_key)).1
              (RandOk zero_key)
              (TlsConfig true VersionTLS12 ["h2"; "http/1.1"] [zero_key])
              "http/1.1")
    as (r & hm & Hr & Hhm & _).
  - vm_compute. reflexivity.
  - vm_compute. reflexivity.
  - right. vm_compute. set_solver.
  - exists r, hm. split; assumption.
Defined.

End Validation.

(** ** The handshake router and the relay *)

Module RelayFacts.

Import Proxy Relay.

(** *** Traces *)

Lemma local_snoc t tr t' a :
  local t (tr ++ [(t', a)])
    = local t tr ++ (if decide (t' = t) then [a] else []).
Proof.
  unfold local. rewrite filter_app, fmap_app. f_equal.
  rewrite filter_cons, filter_nil. cbn [fst].
  destruct (decide (t' = t)); done.
Qed.

Lemma elem_of_local t a tr : a ∈ local t tr <-> (t, a) ∈ tr.
Proof.
  unfold local. rewrite list_elem_of_fmap. split.
  - intros ([t' a'] & -> & [Ht Hin]%list_elem_of_filter).
    cbn in Ht. by subst.
  - intros Hin. exists (t, a). split; [done|].
    by apply list_elem_of_filter.
Qed.

Lemma sends_app tr1 tr2 : sends (tr1 ++ tr2) = sends tr1 ++ sends tr2.
Proof.
  induction tr1 as [|[t a] tr1 IH]; [done|].
  cbn [app sends]. destruct a; rewrite ?IH; done.
Qed.

Lemma elem_of_sends t sent tr : (t, sent) ∈ sends tr <-> (t, ASend sent) ∈ tr.
Proof.
  induction tr as [|[t' a] tr IH].
  - cbn. split; intros ?%elem_of_nil; done.
  - rewrite elem_of_cons. destruct a; cbn [sends];
      rewrite ?elem_of_cons, IH; try (split; [by right|]; by intros [[=]|?]).
    split; (intros [[= -> ->]|?]; [by left|by right]).
Qed.

Lemma count_snoc f tr e :
  count f (tr ++ [e]) = count f tr + (if f e.2 then 1 else 0).
Proof.
  unfold count. rewrite filter_app, length_app. f_equal.
  rewrite filter_cons, filter_nil. destruct (f e.2); done.
Qed.

(** Every action is the handler's or the spawned goroutine's. *)
Lemma count_local f tr :
  count f tr
    = length (filter (fun a => f a = true) (local Handler tr))
      + length (filter (fun a => f a = true) (local Spawned tr)).
Proof.
  induction tr as [|[t a] tr IH] using rev_ind; [done|].
  rewrite count_snoc, !local_snoc, !filter_app, !length_app, IH. cbn [snd].
  destruct t; destruct (f a) eqn:Hf; repeat case_decide; try done;
    rewrite ?filter_cons, ?filter_nil, ?Hf; repeat case_decide; try done;
    cbn; lia.
Qed.

(** The occurrences, in what one goroutine did, of the actions that
    satisfy [f]. *)
Fixpoint tally (f : action -> bool) (l : list action) : nat :=
  match l with
  | [] => 0
  | a :: l' => (if f a then 1 else 0) + tally f l'
  end.

Lemma tally_filter f l : length (filter (fun a => f a = true) l) = tally f l.
Proof.
  induction l as [|a l IH]; [done|].
  rewrite filter_cons. cbn [tally]. destruct (f a) eqn:Hf; case_decide;
    try done; cbn; lia.
Qed.

Lemma count_tally f tr :
  count f tr = tally f (local Handler tr) + tally f (local Spawned tr).
Proof. by rewrite count_local, !tally_filter. Qed.

Lemma tally_app f l1 l2 : tally f (l1 ++ l2) = tally f l1 + tally f l2.
Proof. induction l1 as [|a l1 IH]; cbn; [done|]. rewrite IH. lia. Qed.

Lemma tally_pos f l : 0 < tally f l -> exists a, a ∈ l /\ f a = true.
Proof.
  induction l as [|a l IH]; cbn; [lia|].
  destruct (f a) eqn:Hf.
  - intros _. exists a. split; [left|done].
  - intros (a' & Hin & Ha')%IH. exists a'. split; [by right|done].
Qed.

Lemma tally_zero f l a : tally f l = 0 -> a ∈ l -> f a = false.
Proof.
  induction l as [|a' l IH]; cbn; [by intros _ ?%elem_of_nil|].
  destruct (f a') eqn:Hf; [lia|].
  intros Hz [->|Hin]%elem_of_cons; [done|by apply IH].
Qed.

Definition is_send_true (a : action) : bool :=
  match a with ASend true => true | _ => false end.
Definition is_send (a : action) : bool :=
  match a with ASend _ => true | _ => false end.

(** *** One goroutine *)

Section Backend.

Variable b : backend.
Variable raddr : string.

#[local] Abbreviation cp_step := (cp_step b raddr).
#[local] Abbreviation step := (step b raddr).
#[local] Abbreviation run := (run b raddr).

(** What a goroutine has done when its attempt on the signal succeeded,
    up to the log of the error; the teardown that follows; and what it has
    done when the attempt failed. *)
Definition won_head (buf : nat) (err : option string) : list action :=
  [AGet buf; ACopy err; ASend true]
  ++ match err with
     | Some e => [ALog (Failure (name b) e)]
     | None => []
     end.

Definition teardown (t : tid) : list action :=
  [AClose (dst t); AClose (src t); ALog (Disconnected (name b) raddr)].

Definition lost (buf : nat) (err : option string) : list action :=
  [AGet buf; ACopy err; ASend false].

(** What a goroutine at [p] has done so far. *)
Definition shape (t : tid) (p : pc) (l : list action) : Prop :=
  match p with
  | AtGet => l = []
  | AtCopy buf => l = [AGet buf]
  | AtSelect buf err => l = [AGet buf; ACopy err]
  | AtLogErr buf e => l = [AGet buf; ACopy (Some e); ASend true]
  | AtCloseDst buf => exists err, l = won_head buf err
  | AtCloseSrc buf => exists err, l = won_head buf err ++ [AClose (dst t)]
  | AtLogDisconnected buf =>
    exists err, l = won_head buf err ++ [AClose (dst t); AClose (src t)]
  | AtPut buf =>
    exists err, l = lost buf err \/ l = won_head buf err ++ teardown t
  | Done =>
    exists buf err,
      l = lost buf err ++ [APut buf]
      \/ l = won_head buf err ++ teardown t ++ [APut buf]
  end.

Lemma cp_step_shape t ch p f bp a p' f' bp' l :
  cp_step t ch p f bp = Some (a, p', f', bp') ->
  shape t p l -> shape t p' (l ++ [a]).
Proof.
  unfold Relay.cp_step, shape.
  destruct p as [|buf|buf err|buf e|buf|buf|buf|buf|].
  - destruct (pool_get (pick ch) bp) as [buf bp1].
    intros [= <- <- <- <-] ->. done.
  - intros [= <- <- <- <-] ->. done.
  - destruct (try_send f) as [f1 [|]]; intros [= <- <- <- <-] ->.
    + destruct err as [e|]; [done|]. by exists None.
    + exists err. by left.
  - intros [= <- <- <- <-] ->. by exists (Some e).
  - intros [= <- <- <- <-] [err ->]. by exists err.
  - intros [= <- <- <- <-] [err ->]. exists err.
    by rewrite <- app_assoc.
  - intros [= <- <- <- <-] [err ->]. exists err. right.
    by rewrite <- app_assoc.
  - intros [= <- <- <- <-] [err [->| ->]]; exists buf, err.
    + by left.
    + right. by rewrite <- app_assoc.
  - done.
Qed.

(** *** The signal and the pool *)

(** The signal against the attempts made on it: a one-slot channel, empty
    until the first attempt, which succeeds and fills it; every later
    attempt fails. *)
Definition signal_ok (f : chan) (ss : list (tid * bool)) : Prop :=
  chan_cap f = 1
  /\ match ss with
     | [] => chan_len f = 0
     | (_, sent) :: rest =>
       sent = true /\ chan_len f = 1 /\ Forall (fun x => x.2 = false) rest
     end.

Lemma cp_step_signal t ch p f bp a p' f' bp' ss :
  cp_step t ch p f bp = Some (a, p', f', bp') ->
  signal_ok f ss -> signal_ok f' (ss ++ sends [(t, a)]).
Proof.
  unfold Relay.cp_step, signal_ok.
  destruct p as [|buf|buf err|buf e|buf|buf|buf|buf|];
    try (intros [= <- <- <- <-]; cbn [sends]; by rewrite app_nil_r).
  - destruct (pool_get (pick ch) bp) as [buf bp1].
    intros [= <- <- <- <-]. cbn [sends]. by rewrite app_nil_r.
  - unfold try_send. intros Hstep [Hcap Hss]. rewrite Hcap in Hstep.
    destruct ss as [|[w sent] rest].
    + rewrite Hss in Hstep. rewrite decide_True in Hstep by lia.
      injection Hstep as <- <- <- <-. cbn. repeat split; by try constructor.
    + destruct Hss as (-> & Hlen & Hrest). rewrite Hlen in Hstep.
      rewrite decide_False in Hstep by lia.
      injection Hstep as <- <- <- <-. cbn.
      split; [done|]. split; [done|]. split; [done|].
      apply Forall_app. split; [done|]. by apply Forall_singleton.
Qed.

(** The buffers against the pool as it was at the start: those at rest and
    those held are the ones at rest then and the ones made since. *)
Definition pool_ok (bp0 bp : pool) (hs : list nat) : Prop :=
  fresh bp0 <= fresh bp
  /\ free bp ++ hs ≡ₚ free bp0 ++ seq (fresh bp0) (fresh bp - fresh bp0).

Lemma cp_step_pool bp0 t ch p f bp a p' f' bp' others :
  cp_step t ch p f bp = Some (a, p', f', bp') ->
  pool_ok bp0 bp (held_at p ++ others) ->
  pool_ok bp0 bp' (held_at p' ++ others).
Proof.
  unfold Relay.cp_step, pool_ok.
  destruct p as [|buf|buf err|buf e|buf|buf|buf|buf|];
    try (intros [= <- <- <- <-]; by cbn [held_at]).
  - unfold pool_get. intros Hstep [Hle Hperm]. cbn [held_at app] in Hperm.
    assert (Hnew : fresh bp0 <= S (fresh bp)
                   /\ free bp ++ fresh bp :: others
                      ≡ₚ free bp0 ++ seq (fresh bp0) (S (fresh bp) - fresh bp0)).
    { split; [lia|].
      replace (S (fresh bp) - fresh bp0) with (S (fresh bp - fresh bp0)) by lia.
      rewrite seq_S, app_assoc, <- Hperm.
      replace (fresh bp0 + (fresh bp - fresh bp0)) with (fresh bp) by lia.
      rewrite <- app_assoc. apply Permutation_app_head.
      apply Permutation_cons_append. }
    destruct (pick ch) as [i|]; [destruct (free bp !! i) as [buf|] eqn:Hi|];
      injection Hstep as <- <- <- <-; cbn [held_at app free fresh]; try done.
    split; [done|]. rewrite <- Hperm.
    rewrite (delete_Permutation (free bp) i buf) at 2 by done.
    cbn [app]. symmetry. apply Permutation_middle.
  - destruct (try_send f) as [f1 [|]]; intros [= <- <- <- <-];
      [destruct err|]; by cbn [held_at].
  - intros [= <- <- <- <-] [Hle Hperm]. cbn [held_at app pool_put free fresh] in *.
    split; [done|]. rewrite <- Hperm. apply Permutation_middle.
Qed.

(** *** The relay *)

(** What holds of the relay at every moment. *)
Definition inv (bp0 : pool) (s : relay) : Prop :=
  shape Handler (at_handler s) (local Handler (trace s))
  /\ shape Spawned (at_spawned s) (local Spawned (trace s))
  /\ signal_ok (first s) (sends (trace s))
  /\ pool_ok bp0 (bufferPool s) (held s).

Lemma start_inv bp : inv bp (start bp).
Proof.
  unfold inv, start, signal_ok, pool_ok, held. cbn.
  rewrite Nat.sub_diag. cbn. by rewrite !app_nil_r.
Qed.

Lemma step_inv bp0 ch s : inv bp0 s -> inv bp0 (step ch s).
Proof.
  intros (HH & HS & Hsig & Hpool). unfold Relay.step.
  destruct (cp_step (who ch) ch (at_tid (who ch) s) (first s) (bufferPool s))
    as [[[[a p'] f'] bp']|] eqn:Hstep; [|done].
  unfold inv, held in *.
  destruct (who ch); cbn [at_tid] in Hstep;
    cbn [at_handler at_spawned trace first bufferPool];
    rewrite !local_snoc, sends_app;
    repeat case_decide; try done; rewrite ?app_nil_r.
  - split; [by eapply cp_step_shape|]. split; [done|].
    split; [by eapply cp_step_signal|]. by eapply cp_step_pool.
  - split; [done|]. split; [by eapply cp_step_shape|].
    split; [by eapply cp_step_signal|].
    destruct Hpool as [Hle Hperm].
    assert (Hpool' : pool_ok bp0 (bufferPool s)
                       (held_at (at_spawned s) ++ held_at (at_handler s))).
    { split; [done|]. rewrite <- Hperm. apply Permutation_app_head.
      apply Permutation_app_comm. }
    apply (cp_step_pool _ _ _ _ _ _ _ _ _ _ _ Hstep) in Hpool'
      as [Hle' Hperm'].
    split; [done|]. rewrite <- Hperm'. apply Permutation_app_head.
    apply Permutation_app_comm.
Qed.

Lemma run_inv bp0 sched s : inv bp0 s -> inv bp0 (run sched s).
Proof.
  revert s. induction sched as [|ch sched IH]; intros s Hinv; [done|].
  cbn. apply IH. by apply step_inv.
Qed.

(** *** What the shapes give *)

Lemma shape_tallies t p l :
  shape t p l ->
  tally is_send_true l <= 1
  /\ tally (is_close TlsClient) l <= tally is_send_true l
  /\ tally (is_close BackendSock) l <= tally is_send_true l
  /\ tally (is_close RawClient) l = 0
  /\ tally is_disconnect l <= tally is_send_true l
  /\ tally is_teardown l <= 4 * tally is_send_true l
  /\ tally is_put l <= tally is_get l <= 1.
Proof.
  unfold shape.
  destruct p as [|buf|buf err|buf e|buf|buf|buf|buf|]; intros Hl;
    repeat match goal with
           | H : exists _, _ |- _ => destruct H as [? H]
           | H : _ \/ _ |- _ => destruct H as [H|H]
           end;
    subst l; try (destruct t); 
    repeat match goal with err : option string |- _ => destruct err end;
    vm_compute; lia.
Qed.

Lemma shape_Done t l :
  shape t Done l ->
  tally is_send l = 1
  /\ tally (is_close (dst t)) l = tally is_send_true l
  /\ tally (is_close (src t)) l = tally is_send_true l
  /\ tally is_disconnect l = tally is_send_true l
  /\ tally is_get l = 1 /\ tally is_put l = 1.
Proof.
  intros (buf & err & [->| ->]); destruct t, err; vm_compute; lia.
Qed.

(** *** The attempts on the signal *)

Definition wins (ss : list (tid * bool)) : nat :=
  length (filter (fun x => x.2 = true) ss).

Lemma wins_app ss1 ss2 : wins (ss1 ++ ss2) = wins ss1 + wins ss2.
Proof. unfold wins. by rewrite filter_app, length_app. Qed.

Lemma count_sends_true tr : count is_send_true tr = wins (sends tr).
Proof.
  induction tr as [|[t a] tr IH] using rev_ind; [done|].
  rewrite count_snoc, sends_app, wins_app, IH. f_equal.
  by destruct a as [| | | | |[|]|].
Qed.

Lemma count_sends tr : count is_send tr = length (sends tr).
Proof.
  induction tr as [|[t a] tr IH] using rev_ind; [done|].
  rewrite count_snoc, sends_app, length_app, IH. f_equal.
  by destruct a.
Qed.

Lemma wins_none ss : Forall (fun x => x.2 = false) ss -> wins ss = 0.
Proof.
  unfold wins. induction 1 as [|[t sent] ss Hx _ IH]; [done|].
  rewrite filter_cons. cbn in Hx. subst sent. by case_decide.
Qed.

Lemma signal_wins f ss :
  signal_ok f ss ->
  wins ss = chan_len f /\ chan_len f <= 1 /\ (ss ≠ [] -> chan_len f = 1).
Proof.
  intros [_ Hss]. destruct ss as [|[w sent] rest].
  - rewrite Hss. split; [done|]. split; [lia|done].
  - destruct Hss as (-> & -> & Hrest).
    change ((w, true) :: rest) with ([(w, true)] ++ rest).
    rewrite wins_app, (wins_none rest) by done.
    split; [|split; [lia|done]]. unfold wins. rewrite filter_cons. cbn [snd].
    by case_decide.
Qed.

(** Only the goroutine whose attempt came first has sent. *)
Lemma signal_winner f tr w sent rest t :
  signal_ok f (sends tr) ->
  sends tr = (w, sent) :: rest ->
  (t, ASend true) ∈ tr -> t = w.
Proof.
  intros [_ Hss] Heq Hin%elem_of_sends. rewrite Heq in Hss, Hin.
  destruct Hss as (-> & _ & Hrest).
  apply elem_of_cons in Hin as [[= ->]|Hin]; [done|].
  rewrite Forall_forall in Hrest. by apply Hrest in Hin.
Qed.

Lemma is_send_true_inv a : is_send_true a = true -> a = ASend true.
Proof. by destruct a as [| | | | |[|]|]. Qed.

(** *** Progress *)

(** The steps a goroutine at [p] has at most before it is done. *)
Definition remaining (p : pc) : nat :=
  match p with
  | AtGet => 8
  | AtCopy _ => 7
  | AtSelect _ _ => 6
  | AtLogErr _ _ => 5
  | AtCloseDst _ => 4
  | AtCloseSrc _ => 3
  | AtLogDisconnected _ => 2
  | AtPut _ => 1
  | Done => 0
  end.

(** The turns a schedule gives to a goroutine. *)
Definition turns (t : tid) (sched : list choice) : nat :=
  length (filter (fun ch => who ch = t) sched).

Lemma cp_step_remaining t ch p f bp :
  match cp_step t ch p f bp with
  | Some (_, p', _, _) => remaining p' < remaining p
  | None => p = Done
  end.
Proof.
  unfold Relay.cp_step. destruct p as [|buf|buf err|buf e|buf|buf|buf|buf|];
    cbn; try lia; try done.
  - destruct (pool_get (pick ch) bp). cbn. lia.
  - destruct (try_send f) as [f' [|]]; [destruct err|]; cbn; lia.
Qed.

Lemma step_remaining ch s t :
  remaining (at_tid t (step ch s))
    <= remaining (at_tid t s) - (if decide (who ch = t) then 1 else 0).
Proof.
  unfold Relay.step.
  pose proof (cp_step_remaining (who ch) ch (at_tid (who ch) s) (first s)
                (bufferPool s)) as Hrem.
  destruct (cp_step _ _ _ _ _) as [[[[a p'] f'] bp']|].
  - destruct (who ch), t; cbn [at_tid at_handler at_spawned] in *;
      case_decide; try done; lia.
  - case_decide; [|lia]. subst t. rewrite Hrem. cbn. lia.
Qed.

Lemma run_remaining sched s t :
  remaining (at_tid t (run sched s)) <= remaining (at_tid t s) - turns t sched.
Proof.
  revert s. induction sched as [|ch sched IH]; intros s; [cbn; lia|].
  cbn [Relay.run fold_left]. fold (run sched (step ch s)).
  etrans; [apply IH|]. pose proof (step_remaining ch s t) as Hstep.
  unfold turns. rewrite filter_cons. case_decide; cbn [length];
    fold (turns t sched); lia.
Qed.

Lemma remaining_Done p : remaining p = 0 -> p = Done.
Proof. by destruct p. Qed.

(** With eight turns each, both goroutines are done. *)
Lemma run_completes bp sched t :
  8 <= turns t sched -> at_tid t (run sched (start bp)) = Done.
Proof.
  intros Hturns. apply remaining_Done.
  pose proof (run_remaining sched (start bp) t) as Hrem.
  destruct t; cbn [at_tid start at_handler at_spawned remaining] in *; lia.
Qed.

Lemma tally_elem f l a : a ∈ l -> f a = true -> 0 < tally f l.
Proof.
  induction l as [|a' l IH]; [by intros ?%elem_of_nil|].
  intros [->|Hin]%elem_of_cons Hf; cbn [tally].
  - rewrite Hf. lia.
  - specialize (IH Hin Hf). lia.
Qed.

Lemma at_tid_shape bp0 s t :
  inv bp0 s -> shape t (at_tid t s) (local t (trace s)).
Proof. intros (HH & HS & _). by destruct t. Qed.

(** Whoever closes a socket or writes to the log has sent on [first]. *)
Lemma teardown_sender bp0 s t a :
  inv bp0 s -> (t, a) ∈ trace s -> is_teardown a = true ->
  (t, ASend true) ∈ trace s.
Proof.
  intros Hinv Hin Ha.
  pose proof (shape_tallies _ _ _ (at_tid_shape bp0 s t Hinv))
    as (_ & _ & _ & _ & _ & Htd & _).
  apply elem_of_local in Hin.
  pose proof (tally_elem is_teardown _ _ Hin Ha) as Hpos.
  destruct (tally_pos is_send_true (local t (trace s))) as (a' & Hin' & Ha');
    [lia|].
  apply is_send_true_inv in Ha'. subst a'. by apply elem_of_local.
Qed.

(** A goroutine that is done has made its attempt on [first]. *)
Lemma done_sender bp0 s t :
  inv bp0 s -> at_tid t s = Done -> exists sent, (t, sent) ∈ sends (trace s).
Proof.
  intros Hinv Hdone. pose proof (at_tid_shape bp0 s t Hinv) as Hshape.
  rewrite Hdone in Hshape.
  destruct Hshape as (buf & err & [Hl|Hl]).
  - exists false. apply elem_of_sends, elem_of_local. rewrite Hl.
    unfold lost. set_solver.
  - exists true. apply elem_of_sends, elem_of_local. rewrite Hl.
    unfold won_head. set_solver.
Qed.

End Backend.

(** C1. In the stream relay the signal [first] is a channel of one slot.
    The goroutine whose attempt to send on it comes first (the direction
    whose copy is over first) succeeds, and it alone closes sockets and
    writes to the log; every later attempt fails, and the goroutine that
    made it does neither. At every moment each of the two sockets has been
    closed at most once and at most one disconnect line has been logged,
    and nothing is closed or logged before the first attempt; once both
    goroutines are done (eight turns each do), each socket has been closed
    exactly once and exactly one disconnect line has been logged. This
    holds under every schedule of the two goroutines and whatever the
    copies return. *)
Theorem relay_teardown_once (b : backend) (raddr : string) (bp : pool)
    (sched : list choice) :
  let s := run b raddr sched (start bp) in
  chan_cap (first s) = 1 /\ chan_len (first s) <= 1
  /\ count (is_close TlsClient) (trace s) <= 1
  /\ count (is_close BackendSock) (trace s) <= 1
  /\ count is_disconnect (trace s) <= 1
  /\ (sends (trace s) = [] -> count is_teardown (trace s) = 0)
  /\ (forall w sent rest,
        sends (trace s) = (w, sent) :: rest ->
        sent = true
        /\ Forall (fun x => x.2 = false) rest
        /\ forall t a, (t, a) ∈ trace s -> is_teardown a = true -> t = w)
  /\ (at_handler s = Done -> at_spawned s = Done ->
      count (is_close TlsClient) (trace s) = 1
      /\ count (is_close BackendSock) (trace s) = 1
      /\ count is_disconnect (trace s) = 1
      /\ exists w l, w ≠ l /\ sends (trace s) = [(w, true); (l, false)])
  /\ (8 <= turns Handler sched -> 8 <= turns Spawned sched ->
      at_handler s = Done /\ at_spawned s = Done).
Proof.
  intros s.
  assert (Hinv : inv b raddr bp s) by apply run_inv, start_inv.
  pose proof Hinv as (HH & HS & Hsig & _).
  pose proof (shape_tallies _ _ _ _ _ HH) as (_ & HH1 & HH2 & _ & HH3 & HH4 & _).
  pose proof (shape_tallies _ _ _ _ _ HS) as (_ & HS1 & HS2 & _ & HS3 & HS4 & _).
  pose proof (signal_wins _ _ Hsig) as (Hwins & Hlen & Hfull).
  pose proof (count_sends_true (trace s)) as Htrue.
  rewrite count_tally, Hwins in Htrue.
  rewrite !count_tally.
  split; [apply Hsig|]. split; [done|].
  split; [lia|]. split; [lia|]. split; [lia|].
  split; [|split; [|split]]; cycle 3.
  - intros HtH HtS. split.
    + apply (run_completes b raddr bp sched Handler HtH).
    + apply (run_completes b raddr bp sched Spawned HtS).
  - intros Hnone. rewrite Hnone in Hsig. destruct Hsig as [_ Hzero]. lia.
  - intros w sent rest Hsends. pose proof Hsig as [_ Hss].
    rewrite Hsends in Hss. destruct Hss as (-> & _ & Hrest).
    split; [done|]. split; [done|].
    intros t a Hin Ha. eapply signal_winner; [exact Hsig|exact Hsends|].
    by eapply teardown_sender.
  - intros HdoneH HdoneS. rewrite HdoneH in HH. rewrite HdoneS in HS.
    pose proof (shape_Done _ _ _ _ HH) as (HsH & HH5 & HH6 & HH7 & _).
    pose proof (shape_Done _ _ _ _ HS) as (HsS & HS5 & HS6 & HS7 & _).
    cbn [dst src] in *.
    pose proof (count_sends (trace s)) as Hsends. rewrite count_tally in Hsends.
    destruct (sends (trace s)) as [|[w sent] rest] eqn:Hss; [cbn in Hsends; lia|].
    rewrite Hfull in * by done.
    split; [lia|]. split; [lia|]. split; [lia|].
    destruct Hsig as [_ (-> & _ & Hrest)].
    destruct rest as [|[l sent] [|? ?]]; cbn in Hsends; try lia.
    rewrite Forall_singleton in Hrest. cbn in Hrest. subst sent.
    exists w, l. split; [|done]. intros ->.
    destruct (done_sender b raddr bp s Handler Hinv HdoneH) as [x Hx].
    destruct (done_sender b raddr bp s Spawned Hinv HdoneS) as [y Hy].
    rewrite Hss in Hx, Hy.
    assert (Hsame : forall t z, (t, z) ∈ [(l, true); (l, false)] -> t = l).
    { intros t z Hin.
      apply elem_of_cons in Hin as [[= -> _]|Hin]; [done|].
      apply elem_of_cons in Hin as [[= -> _]|Hin]; [done|].
      by apply elem_of_nil in Hin. }
    apply Hsame in Hx, Hy. congruence.
Qed.

(** C8. Under every schedule, a goroutine of the relay that is done has
    taken one buffer from the pool first and put that same buffer back
    last, whether its copy returned an error or not and whether it won or
    lost the race for the signal; no goroutine puts back what it did not
    take. The pool loses no buffer: those at rest and those still held are
    the ones at rest at the start and the ones made since, so that with
    both goroutines done they are all at rest. With eight turns a
    goroutine is done. *)
Theorem relay_buffer_returned (b : backend) (raddr : string) (bp : pool)
    (sched : list choice) :
  let s := run b raddr sched (start bp) in
  (forall t,
     at_tid t s = Done ->
     exists buf err,
       local t (trace s) = lost buf err ++ [APut buf]
       \/ local t (trace s) =
            won_head b buf err ++ teardown b raddr t ++ [APut buf])
  /\ (forall t,
        tally is_put (local t (trace s)) <= tally is_get (local t (trace s))
        /\ tally is_get (local t (trace s)) <= 1)
  /\ free (bufferPool s) ++ held s
       ≡ₚ free bp ++ seq (fresh bp) (fresh (bufferPool s) - fresh bp)
  /\ (at_handler s = Done -> at_spawned s = Done ->
      free (bufferPool s)
        ≡ₚ free bp ++ seq (fresh bp) (fresh (bufferPool s) - fresh bp))
  /\ (forall t, 8 <= turns t sched -> at_tid t s = Done).
Proof.
  intros s.
  assert (Hinv : inv b raddr bp s) by apply run_inv, start_inv.
  pose proof Hinv as (_ & _ & _ & Hle & Hperm).
  split; [|split; [|split; [|split]]].
  - intros t Hdone. pose proof (at_tid_shape b raddr bp s t Hinv) as Hshape.
    by rewrite Hdone in Hshape.
  - intros t.
    pose proof (shape_tallies _ _ _ _ _ (at_tid_shape b raddr bp s t Hinv))
      as (_ & _ & _ & _ & _ & _ & Hput). lia.
  - done.
  - intros HdoneH HdoneS. unfold held in Hperm.
    rewrite HdoneH, HdoneS in Hperm. cbn in Hperm.
    by rewrite app_nil_r in Hperm.
  - intros t. apply run_completes.
Qed.

(** C5. When the handshake succeeds and the routing table has no backend
    for the negotiated protocol and server name, the handler logs the miss,
    closes the connection and returns: these two actions are all the
    connection does, no backend is dialled, and the handler ends without a
    panic (reading a map that is nil or lacks the key yields no value). *)
Theorem unknown_route_closes (w : world) (raddr np sn : string)
    (dial : option string) (bp : pool) (sched : list choice) :
  Validation.route (backends (px w)) (hostmaps w) np ≫= (.!! sn) = None ->
  handle w raddr (ConnectionState np sn) =
    ([ALog (UnableToFind np sn raddr); AClose RawClient], None)
  /\ connection w raddr (ConnectionState np sn) dial bp sched =
       [(Handler, ALog (UnableToFind np sn raddr));
        (Handler, AClose RawClient)]
  /\ count is_dial (connection w raddr (ConnectionState np sn) dial bp sched)
       = 0.
Proof.
  unfold Validation.route. intros Hmiss.
  assert (Hhandle : handle w raddr (ConnectionState np sn) =
                      ([ALog (UnableToFind np sn raddr); AClose RawClient],
                       None)).
  { unfold handle. by rewrite Hmiss. }
  split; [done|]. unfold connection. rewrite Hhandle. done.
Qed.

Lemma unknown_route_closes_witness :
  connection (Proxy.init id Example.listed Example.example_world
                         (RandOk zero_key)).1
             "198.51.100.7:50000" (ConnectionState "h2" "b.example")
             None (Pool [] 0) [] =
    [(Handler, ALog (UnableToFind "h2" "b.example" "198.51.100.7:50000"));
     (Handler, AClose RawClient)].
Proof.
  apply (unknown_route_closes
           (Proxy.init id Example.listed Example.example_world
                       (RandOk zero_key)).1
           "198.51.100.7:50000" "h2" "b.example" None (Pool [] 0) []).
  vm_compute. reflexivity.
Defined.

(** The client closes its side while the backend-to-client copy is still
    running: the handler's copy returns at end of input, wins the signal
    and tears down; the other copy then fails on the closed socket, loses
    and only puts its buffer back. *)
Definition eof_first : list choice :=
  [Choice Spawned None None;                 (* Get *)
   Choice Handler None None;                 (* Get *)
   Choice Handler None None;                 (* copy: EOF *)
   Choice Handler None None;                 (* select: sent *)
   Choice Handler None None;                 (* dst.Close() *)
   Choice Handler None None;                 (* src.Close() *)
   Choice Handler None None;                 (* disconnected *)
   Choice Spawned None (Some "use of closed network connection");
   Choice Spawned None None;                 (* select: default *)
   Choice Handler None None;                 (* Put *)
   Choice Spawned None None].                (* Put *)

Example relay_eof_first :
  let s := run (Backend "h2.a.example: " "127.0.0.1:9001") "198.51.100.7:50000"
               eof_first (start (Pool [] 0)) in
  trace s =
    [(Spawned, AGet 0); (Handler, AGet 1);
     (Handler, ACopy None); (Handler, ASend true);
     (Handler, AClose BackendSock); (Handler, AClose TlsClient);
     (Handler, ALog (Disconnected "h2.a.example: " "198.51.100.7:50000"));
     (Spawned, ACopy (Some "use of closed network connection"));
     (Spawned, ASend false);
     (Handler, APut 1); (Spawned, APut 0)]
  /\ at_handler s = Done /\ at_spawned s = Done
  /\ bufferPool s = Pool [0; 1] 2.
Proof. vm_compute. repeat split. Qed.

End RelayFacts.

(** ** More on initialisation and routing *)

Module RoutingFacts.

Import Proxy InitFacts Validation.

(** X1. [contains] answers [true] exactly when the string is an element of
    the slice. *)
Theorem contains_iff (strs : list string) (s : string) :
  contains strs s = true <-> s ∈ strs.
Proof.
  induction strs as [|s2 strs IH]; cbn [contains].
  - split; [done|]. by intros ?%elem_of_nil.
  - rewrite elem_of_cons. case_decide; [tauto|].
    rewrite IH. tauto.
Qed.

Section Routing.

Variable quote : string -> string.
Variable range_order : nat -> gmap string string -> list (string * string).

#[local] Abbreviation init := (init quote range_order).
#[local] Abbreviation violations := (violations range_order).

Lemma first_error_not_Panicked vs : first_error vs ≠ Panicked.
Proof. by destruct vs. Qed.

Lemma init_not_Panicked w rnd : (init w rnd).2 ≠ Panicked.
Proof.
  rewrite init_outcome.
  pose proof (first_error_not_Panicked (violations (px w))) as Hfirst.
  destruct (first_error (violations (px w))); try done.
  by destruct rnd.
Qed.

(** What [init] leaves of the configuration, whatever it returns. *)
Lemma init_configuration w rnd :
  Email (px (init w rnd).1) = Email (px w)
  /\ CacheDir (px (init w rnd).1) = CacheDir (px w)
  /\ Protos (px (init w rnd).1) = Protos (px w)
  /\ DefaultProto (px (init w rnd).1) = DefaultProto (px w)
  /\ BindInterfaces (px (init w rnd).1) =
       match BindInterfaces (px w) with
       | [] => [""]
       | _ => BindInterfaces (px w)
       end.
Proof.
  assert (Hbinds : (if decide (length (BindInterfaces (px w)) = 0)
                    then [""] else BindInterfaces (px w))
                   = match BindInterfaces (px w) with
                     | [] => [""]
                     | _ => BindInterfaces (px w)
                     end).
  { destruct (BindInterfaces (px w)); by case_decide. }
  unfold Proxy.init. cbn [DefaultProto Protos CacheDir Email BindInterfaces].
  rewrite Hbinds.
  repeat (case_match; cbn [fst px set_px Email CacheDir Protos DefaultProto
                             BindInterfaces]; try done).
Qed.

(** *** The table of a list of protocol definitions *)

#[local] Abbreviation table_of := (table_of quote).
#[local] Abbreviation host_map := (host_map quote).
#[local] Abbreviation routing_table := (routing_table quote).

Lemma host_map_lookup pname hosts h :
  host_map pname hosts !! h
    = Backend (label quote pname h) <$> hosts !! h.
Proof.
  unfold Validation.host_map. rewrite map_lookup_imap.
  by destruct (hosts !! h).
Qed.

Lemma table_of_app l1 l2 t : table_of (l1 ++ l2) t = table_of l2 (table_of l1 t).
Proof. apply foldl_app. Qed.

Lemma table_of_cons pd rest t :
  table_of (pd :: rest) t
    = table_of rest (<[Name pd := host_map (Name pd) (Hosts pd)]> t).
Proof. reflexivity. Qed.

Lemma table_of_other protos t n :
  n ∉ Name <$> protos -> table_of protos t !! n = t !! n.
Proof.
  revert t. induction protos as [|pd rest IH]; intros t Hn; [done|].
  rewrite fmap_cons, not_elem_of_cons in Hn. destruct Hn as [Hne Hn].
  rewrite table_of_cons, IH by done. by rewrite lookup_insert_ne.
Qed.

(** The last definition of a name decides its host map. *)
Lemma table_of_last l1 pd l2 t :
  Name pd ∉ Name <$> l2 ->
  table_of (l1 ++ pd :: l2) t !! Name pd
    = Some (host_map (Name pd) (Hosts pd)).
Proof.
  intros Hlast. rewrite table_of_app, table_of_cons.
  rewrite table_of_other by done. apply lookup_insert_eq.
Qed.

(** Every host map of the table comes from a definition of its name. *)
Lemma table_of_Some protos n hm :
  table_of protos ∅ !! n = Some hm ->
  exists pd, pd ∈ protos /\ Name pd = n /\ hm = host_map n (Hosts pd).
Proof.
  induction protos as [|pd rest IH] using rev_ind.
  - cbn. by rewrite lookup_empty.
  - rewrite table_of_app, table_of_cons. cbn [Validation.table_of foldl].
    destruct (decide (Name pd = n)) as [<-|Hne].
    + rewrite lookup_insert_eq. intros [= <-]. exists pd.
      split; [|done]. apply elem_of_app. right. left.
    + rewrite lookup_insert_ne by done. intros (pd' & Hin & Hn)%IH.
      exists pd'. split; [|done]. apply elem_of_app. by left.
Qed.

(** *** A configuration without violation *)

Lemma concat_imap_nil {A B} (f : nat -> A -> list B) (l : list A) i x :
  concat (imap f l) = [] -> l !! i = Some x -> f i x = [].
Proof.
  revert f i. induction l as [|y l IH]; intros f i; [done|].
  rewrite imap_cons. cbn [concat].
  intros [Hy Hl]%app_eq_nil. destruct i as [|i]; cbn.
  - by intros [= <-].
  - by apply (IH (f ∘ S)).
Qed.

Lemma flat_map_nil {A B} (f : A -> list B) (l : list A) x :
  flat_map f l = [] -> x ∈ l -> f x = [].
Proof.
  induction l as [|y l IH]; cbn; [by intros _ ?%elem_of_nil|].
  intros [Hy Hl]%app_eq_nil [->|Hin]%elem_of_cons; [done|by apply IH].
Qed.

Lemma valid_proto p i pd :
  violations p = [] -> Protos p !! i = Some pd ->
  Name pd ≠ "" /\ Hosts pd ≠ ∅
  /\ forall h a, (h, a) ∈ range_order i (Hosts pd) -> h ≠ "" /\ a ≠ "".
Proof.
  intros (_ & Hclean & _)%violations_nil_inv Hpd.
  pose proof (concat_imap_nil _ _ _ _ Hclean Hpd) as Hpv. cbn in Hpv.
  unfold proto_violations in Hpv.
  apply app_eq_nil in Hpv as [Hname Hpv].
  apply app_eq_nil in Hpv as [Hhosts Hentries].
  split; [repeat case_decide; done|]. split; [repeat case_decide; done|].
  intros h a Hin. pose proof (flat_map_nil _ _ _ Hentries Hin) as Hev.
  unfold entry_violations in Hev. cbn [fst snd] in Hev.
  apply app_eq_nil in Hev as [Hh Ha]. split; repeat case_decide; done.
Qed.

Lemma valid_proto_elem p pd :
  violations p = [] -> pd ∈ Protos p -> Name pd ≠ "".
Proof.
  intros Hv [i Hi]%list_elem_of_lookup.
  by destruct (valid_proto p i pd Hv Hi).
Qed.

Lemma routing_table_lookup p n :
  violations p = [] ->
  routing_table p !! n
    = table_of (Protos p) ∅ !! (if decide (n = "") then DefaultProto p else n).
Proof.
  intros Hv. unfold Validation.routing_table.
  destruct (table_of (Protos p) ∅ !! DefaultProto p) as [hm|] eqn:Hdp.
  - case_decide as Hn.
    + subst n. by rewrite lookup_insert_eq.
    + by rewrite lookup_insert_ne.
  - case_decide as Hn; [|done]. subst n. rewrite Hdp.
    destruct (table_of (Protos p) ∅ !! "") as [hm|] eqn:Hempty; [|done].
    apply table_of_Some in Hempty as (pd & Hin & Hname & _).
    by destruct (valid_proto_elem p pd Hv Hin).
Qed.

Section Order.

Hypothesis range_order_perm :
  forall i m, range_order i m ≡ₚ map_to_list m.

Lemma range_order_entry i (m : gmap string string) h a :
  (h, a) ∈ range_order i m <-> m !! h = Some a.
Proof. by rewrite range_order_perm, elem_of_map_to_list. Qed.

(** Routing after [init], read in the table of the specification. *)
Lemma valid_handle w rnd raddr np sn :
  violations (px w) = [] ->
  Relay.handle (init w rnd).1 raddr (Relay.ConnectionState np sn) =
    match routing_table (px w) !! np ≫= (.!! sn) with
    | Some b => ([], Some b)
    | None =>
      ([Relay.ALog (Relay.UnableToFind np sn raddr);
        Relay.AClose Relay.RawClient], None)
    end.
Proof.
  intros Hv. unfold Relay.handle.
  pose proof (init_valid_route quote range_order range_order_perm w rnd Hv np)
    as Hroute.
  unfold route in Hroute. by rewrite Hroute.
Qed.

Lemma route_found w rnd raddr l1 pd l2 h a np :
  violations (px w) = [] ->
  Protos (px w) = l1 ++ pd :: l2 ->
  Name pd ∉ Name <$> l2 ->
  Hosts pd !! h = Some a ->
  np = Name pd \/ (np = "" /\ DefaultProto (px w) = Name pd) ->
  Relay.handle (init w rnd).1 raddr (Relay.ConnectionState np h)
    = ([], Some (Backend (label quote (Name pd) h) a)).
Proof.
  intros Hv Hprotos Hlast Hh Hnp.
  assert (Hname : Name pd ≠ "").
  { apply (valid_proto_elem (px w)); [done|]. rewrite Hprotos.
    apply elem_of_app. right. left. }
  rewrite valid_handle, routing_table_lookup by done.
  assert (Hkey : (if decide (np = "") then DefaultProto (px w) else np)
                 = Name pd).
  { destruct Hnp as [->|[-> ->]]; by case_decide. }
  rewrite Hkey, Hprotos, table_of_last by done. cbn.
  by rewrite host_map_lookup, Hh.
Qed.

Lemma route_sound w rnd raddr np sn acts b :
  violations (px w) = [] ->
  Relay.handle (init w rnd).1 raddr (Relay.ConnectionState np sn)
    = (acts, Some b) ->
  exists pd,
    pd ∈ Protos (px w)
    /\ (np = Name pd \/ (np = "" /\ DefaultProto (px w) = Name pd))
    /\ Hosts pd !! sn = Some (addr b)
    /\ name b = label quote (Name pd) sn
    /\ addr b ≠ "" /\ sn ≠ "".
Proof.
  intros Hv. rewrite valid_handle, routing_table_lookup by done.
  set (n := if decide (np = "") then DefaultProto (px w) else np).
  destruct (table_of (Protos (px w)) ∅ !! n) as [hm|] eqn:Hn; [|done].
  cbn. destruct (hm !! sn) as [b'|] eqn:Hb; [|done].
  intros [= _ ->].
  apply table_of_Some in Hn as (pd & Hin & Hname & ->).
  rewrite host_map_lookup in Hb.
  destruct (Hosts pd !! sn) as [a|] eqn:Ha; [|done].
  injection Hb as <-. cbn [addr name].
  exists pd. split; [done|].
  split; [subst n; case_decide; [right|left]; done|].
  split; [done|]. split; [by rewrite Hname|].
  apply list_elem_of_lookup in Hin as [i Hi].
  destruct (valid_proto (px w) i pd Hv Hi) as (_ & _ & Hentries).
  destruct (Hentries sn a) as [? ?]; [by apply range_order_entry|done].
Qed.

Lemma allowed_of_routed w rnd raddr np sn acts b :
  violations (px w) = [] ->
  Relay.handle (init w rnd).1 raddr (Relay.ConnectionState np sn)
    = (acts, Some b) ->
  exists mgr, manager (px (init w rnd).1) = Some mgr /\ sn ∈ HostPolicy mgr.
Proof.
  intros Hv (pd & Hin & _ & Hsn & _)%route_sound; [|done].
  destruct (init_valid_hosts quote range_order range_order_perm w rnd Hv)
    as (mgr & Hmgr & _ & Hhosts).
  exists mgr. split; [done|]. apply Hhosts. unfold hostnames.
  apply elem_of_union_list. exists (dom (Hosts pd)).
  split; [|by apply elem_of_dom].
  apply list_elem_of_fmap. by exists pd.
Qed.

Lemma routed_of_allowed w rnd raddr mgr h :
  violations (px w) = [] ->
  NoDup (Name <$> Protos (px w)) ->
  manager (px (init w rnd).1) = Some mgr ->
  h ∈ HostPolicy mgr ->
  exists np b,
    np ∈ Name <$> Protos (px w)
    /\ Relay.handle (init w rnd).1 raddr (Relay.ConnectionState np h)
       = ([], Some b).
Proof.
  intros Hv Hnd Hmgr Hh.
  destruct (init_valid_hosts quote range_order range_order_perm w rnd Hv)
    as (mgr' & Hmgr' & _ & Hhosts).
  rewrite Hmgr in Hmgr'. injection Hmgr' as <-.
  apply Hhosts in Hh. unfold hostnames in Hh.
  apply elem_of_union_list in Hh as (X & HX & HhX).
  apply list_elem_of_fmap in HX as (pd & -> & Hin).
  apply elem_of_dom in HhX as [a Ha].
  apply list_elem_of_split in Hin as (l1 & l2 & Hsplit).
  assert (Hlast : Name pd ∉ Name <$> l2).
  { rewrite Hsplit, fmap_app, fmap_cons in Hnd.
    apply NoDup_app in Hnd as (_ & _ & Hnd).
    by apply NoDup_cons in Hnd as [? _]. }
  exists (Name pd), (Backend (label quote (Name pd) h) a). split.
  - rewrite Hsplit, fmap_app, fmap_cons. apply elem_of_app. right. left.
  - eapply route_found; eauto.
Qed.

End Order.

End Routing.

(** X2. [init] never panics: the assignment into the host map of a
    protocol always finds the map made just before, so the call returns
    [nil] or an error, for every configuration, store, iteration order and
    outcome of the key generation. *)
Theorem init_never_panics (quote : string -> string)
    (range_order : nat -> gmap string string -> list (string * string))
    (w : world) (rnd : rand_result) :
  (init quote range_order w rnd).2 = Nil
  \/ exists e, (init quote range_order w rnd).2 = Error e.
Proof.
  pose proof (init_not_Panicked quote range_order w rnd) as Hnp.
  destruct (init quote range_order w rnd).2; [by left|right; eauto|done].
Qed.

(** X3. Whatever it returns, [init] leaves the configuration fields as
    they were, except that an empty list of bind interfaces becomes the one
    wildcard interface; so the list is never empty afterwards. *)
Theorem init_keeps_configuration (quote : string -> string)
    (range_order : nat -> gmap string string -> list (string * string))
    (w : world) (rnd : rand_result) :
  Email (px (init quote range_order w rnd).1) = Email (px w)
  /\ CacheDir (px (init quote range_order w rnd).1) = CacheDir (px w)
  /\ Protos (px (init quote range_order w rnd).1) = Protos (px w)
  /\ DefaultProto (px (init quote range_order w rnd).1) = DefaultProto (px w)
  /\ BindInterfaces (px (init quote range_order w rnd).1) =
       match BindInterfaces (px w) with
       | [] => [""]
       | _ => BindInterfaces (px w)
       end
  /\ BindInterfaces (px (init quote range_order w rnd).1) ≠ [].
Proof.
  destruct (init_configuration quote range_order w rnd)
    as (H1 & H2 & H3 & H4 & H5).
  do 5 (split; [done|]). rewrite H5. by destruct (BindInterfaces (px w)).
Qed.

(** X4. After an [init] that returned [nil], the TLS configuration
    advertises exactly the protocol names of the configuration, in its
    order, asks for TLS 1.2 at least with the server's cipher preference,
    and holds one session key; the certificate manager caches in the
    configured directory, under the configured e-mail, with a 15s client
    timeout. *)
Theorem init_advertises_protocols (quote : string -> string)
    (range_order : nat -> gmap string string -> list (string * string))
    (w w' : world) (rnd : rand_result) :
  init quote range_order w rnd = (w', Nil) ->
  exists cfg mgr,
    config (px w') = Some cfg /\ manager (px w') = Some mgr
    /\ NextProtos cfg = Name <$> Protos (px w)
    /\ MinVersion cfg = 0x0303%Z
    /\ PreferServerCipherSuites cfg = true
    /\ length (sessionTicketKeys cfg) = 1
    /\ Cache mgr = CacheDir (px w)
    /\ ManagerEmail mgr = Email (px w)
    /\ ClientTimeout mgr = (15 * 1000000000)%Z.
Proof.
  intros (s & r & k & _ & Hloop & _ & _ & _ & _ & _ & Hcfg & Hmgr & _)
    %init_Nil_inv.
  apply range_protos_Nil in Hloop.
  eexists _, _. split; [exact Hcfg|]. split; [exact Hmgr|].
  cbn. rewrite Hloop, after_protos_next. done.
Qed.

Lemma init_advertises_protocols_witness :
  exists cfg,
    config (px (init id Example.listed Example.example_world
                     (RandOk zero_key)).1) = Some cfg
    /\ NextProtos cfg = ["h2"; "http/1.1"].
Proof.
  destruct (init_advertises_protocols id Example.listed Example.example_world
              (init id Example.listed Example.example_world
                    (RandOk zero_key)).1 (RandOk zero_key))
    as (cfg & mgr & Hcfg & _ & Hnext & _).
  { vm_compute. reflexivity. }
  exists cfg. split; [exact Hcfg | exact Hnext].
Defined.

(** X5. Routing finds what the configuration says. After [init] on a
    configuration without violation, a connection that negotiated a
    configured protocol name (or none, for the default protocol) and asks
    for a host of the last definition of that name is handed to the backend
    with that host's address, labelled by protocol and host; the first
    things the connection then does are the accepted line and the dial of
    that address. *)
Theorem route_round_trip (quote : string -> string)
    (range_order : nat -> gmap string string -> list (string * string))
    (w : world) (rnd : rand_result) (raddr : string)
    (l1 : list proto_def) (pd : proto_def) (l2 : list proto_def)
    (h a np : string) :
  (forall i m, range_order i m ≡ₚ map_to_list m) ->
  violations range_order (px w) = [] ->
  Protos (px w) = l1 ++ pd :: l2 ->
  Name pd ∉ Name <$> l2 ->
  Hosts pd !! h = Some a ->
  np = Name pd \/ (np = "" /\ DefaultProto (px w) = Name pd) ->
  Relay.handle (init quote range_order w rnd).1 raddr
               (Relay.ConnectionState np h)
    = ([], Some (Backend (label quote (Name pd) h) a))
  /\ forall dial bp sched, exists rest,
       Relay.connection (init quote range_order w rnd).1 raddr
                        (Relay.ConnectionState np h) dial bp sched
         = (Relay.Handler,
            Relay.ALog (Relay.Accepted (label quote (Name pd) h) raddr))
           :: (Relay.Handler, Relay.ADial a) :: rest.
Proof.
  intros Hperm Hv Hprotos Hlast Hh Hnp.
  pose proof (route_found quote range_order Hperm w rnd raddr l1 pd l2 h a np
                Hv Hprotos Hlast Hh Hnp) as Hfound.
  split; [done|]. intros dial bp sched.
  unfold Relay.connection. rewrite Hfound.
  unfold Relay.backend_handle. cbn [name addr].
  destruct dial; cbn; eauto.
Qed.

Lemma route_round_trip_witness :
  Relay.handle (init id Example.listed Example.example_world
                     (RandOk zero_key)).1
               "198.51.100.7:50000" (Relay.ConnectionState "" "a.example")
    = ([], Some (Backend (label id "h2" "a.example") "127.0.0.1:9001")).
Proof.
  apply (route_round_trip id Example.listed Example.example_world
           (RandOk zero_key) "198.51.100.7:50000" []
           (ProtoDef "h2" {[ "a.example" := "127.0.0.1:9001" ]})
           [ProtoDef "http/1.1" (<[ "b.example" := "127.0.0.1:9002" ]>
                                   {[ "a.example" := "127.0.0.1:9003" ]})]
           "a.example" "127.0.0.1:9001" "").
  - intros i m. reflexivity.
  - vm_compute. reflexivity.
  - reflexivity.
  - vm_compute. intros Hin. apply elem_of_cons in Hin as [Hin|Hin];
      [discriminate Hin | by apply elem_of_nil in Hin].
  - vm_compute. reflexivity.
  - right. split; reflexivity.
Defined.

(** X6. Routing finds nothing the configuration does not say. After
    [init] on a configuration without violation, a backend the handler
    finds for a protocol and server name comes from a protocol definition
    of that name (the default one for the empty name) that maps the server
    name to the backend's address; neither the server name nor the address
    is empty. *)
Theorem route_only_configured (quote : string -> string)
    (range_order : nat -> gmap string string -> list (string * string))
    (w : world) (rnd : rand_result) (raddr np sn : string)
    (acts : list Relay.action) (b : backend) :
  (forall i m, range_order i m ≡ₚ map_to_list m) ->
  violations range_order (px w) = [] ->
  Relay.handle (init quote range_order w rnd).1 raddr
               (Relay.ConnectionState np sn) = (acts, Some b) ->
  exists pd,
    pd ∈ Protos (px w)
    /\ (np = Name pd \/ (np = "" /\ DefaultProto (px w) = Name pd))
    /\ Hosts pd !! sn = Some (addr b)
    /\ name b = label quote (Name pd) sn
    /\ addr b ≠ "" /\ sn ≠ "".
Proof. intros Hperm. by apply route_sound. Qed.

Lemma route_only_configured_witness :
  exists pd,
    pd ∈ Protos (px Example.example_world)
    /\ Hosts pd !! "b.example" = Some "127.0.0.1:9002".
Proof.
  destruct (route_only_configured id Example.listed Example.example_world
              (RandOk zero_key) "198.51.100.7:50000" "http/1.1" "b.example"
              [] (Backend (label id "http/1.1" "b.example") "127.0.0.1:9002"))
    as (pd & Hin & _ & Hsn & _).
  - intros i m. reflexivity.
  - vm_compute. reflexivity.
  - vm_compute. reflexivity.
  - exists pd. split; [exact Hin | exact Hsn].
Defined.

(** X7. The certificate allow-list covers the routes. After [init] on a
    configuration without violation, every server name the handler can
    route, under whatever protocol, is in the host list given to the
    certificate manager; and when no protocol name is defined twice, every
    host of that list is routed under some advertised protocol. *)
Theorem allow_list_covers_routes (quote : string -> string)
    (range_order : nat -> gmap string string -> list (string * string))
    (w : world) (rnd : rand_result) (raddr : string) :
  (forall i m, range_order i m ≡ₚ map_to_list m) ->
  violations range_order (px w) = [] ->
  exists mgr,
    manager (px (init quote range_order w rnd).1) = Some mgr
    /\ (forall np sn acts b,
          Relay.handle (init quote range_order w rnd).1 raddr
                       (Relay.ConnectionState np sn) = (acts, Some b) ->
          sn ∈ HostPolicy mgr)
    /\ (NoDup (Name <$> Protos (px w)) ->
        forall h, h ∈ HostPolicy mgr ->
        exists np b,
          np ∈ Name <$> Protos (px w)
          /\ Relay.handle (init quote range_order w rnd).1 raddr
                          (Relay.ConnectionState np h) = ([], Some b)).
Proof.
  intros Hperm Hv.
  destruct (init_valid_hosts quote range_order Hperm w rnd Hv)
    as (mgr & Hmgr & _ & _).
  exists mgr. split; [done|]. split.
  - intros np sn acts b Hfound.
    destruct (allowed_of_routed quote range_order Hperm w rnd raddr np sn
                acts b Hv Hfound) as (mgr' & Hmgr' & Hsn).
    rewrite Hmgr in Hmgr'. by injection Hmgr' as <-.
  - intros Hnd h Hh. by eapply routed_of_allowed.
Qed.

Lemma allow_list_covers_routes_witness :
  exists mgr,
    manager (px (init id Example.listed Example.example_world
                      (RandOk zero_key)).1) = Some mgr.
Proof.
  destruct (allow_list_covers_routes id Example.listed Example.example_world
              (RandOk zero_key) "198.51.100.7:50000")
    as (mgr & Hmgr & _).
  - intros i m. reflexivity.
  - vm_compute. reflexivity.
  - exists mgr. exact Hmgr.
Defined.


End RoutingFacts.

(** ** More on the key rotation *)

Module RotationFacts.

Import Proxy KeyRingFacts InitFacts.

Lemma shift_loop_None n s2 (a : list key) :
  0 < s2 -> n <= s2 -> shift_loop n s2 a = None.
Proof.
  intros Hpos Hn. destruct s2 as [|s1]; [lia|].
  cbn [shift_loop]. by rewrite decide_False by lia.
Qed.

Lemma shifted_lookups s2 (a : list key) :
  s2 < length a ->
  (take 1 a ++ take s2 a ++ drop (S s2) a) !! 0 = a !! 0
  /\ (forall j, j < s2 ->
        (take 1 a ++ take s2 a ++ drop (S s2) a) !! S j = a !! j)
  /\ (forall j, s2 < j ->
        (take 1 a ++ take s2 a ++ drop (S s2) a) !! j = a !! j).
Proof.
  intros Hs. destruct a as [|k0 a0]; [cbn in Hs; lia|].
  change (take 1 (k0 :: a0)) with [k0]. cbn [app].
  split; [done|]. split.
  - intros j Hj. rewrite lookup_cons.
    rewrite lookup_app_l by (rewrite length_take; lia).
    by apply lookup_take_lt.
  - intros j Hj. destruct j as [|j]; [lia|]. rewrite lookup_cons.
    rewrite lookup_app_r by (rewrite length_take; lia).
    rewrite length_take, lookup_drop.
    replace (S s2 + (j - s2 `min` length (k0 :: a0))) with (S j) by lia.
    done.
Qed.

(** The other fields of the TLS configuration stay as they are. *)
Lemma rotate_once_frame cfg ks rnd cfg' ks' :
  rotate_once cfg ks rnd = Rotated cfg' ks' ->
  NextProtos cfg' = NextProtos cfg
  /\ MinVersion cfg' = MinVersion cfg
  /\ PreferServerCipherSuites cfg' = PreferServerCipherSuites cfg.
Proof.
  unfold rotate_once.
  destruct (shift_loop _ _ _); [|done]. case_decide; [|done].
  destruct rnd; [|done]. by intros [= <- <-].
Qed.

Lemma rotate_frame cfg ks ticks cfg' ks' :
  rotateSessionTicketKeys cfg ks ticks = Rotated cfg' ks' ->
  NextProtos cfg' = NextProtos cfg
  /\ MinVersion cfg' = MinVersion cfg
  /\ PreferServerCipherSuites cfg' = PreferServerCipherSuites cfg.
Proof.
  revert cfg ks. induction ticks as [|rnd ticks IH]; intros cfg ks.
  - cbn. by intros [= <- <-].
  - cbn [rotateSessionTicketKeys].
    destruct (rotate_once cfg ks rnd) as [cfg1 ks1| |] eqn:Hone; [|done..].
    intros (H1 & H2 & H3)%IH.
    apply rotate_once_frame in Hone as (H1' & H2' & H3').
    repeat split; congruence.
Qed.

Lemma visible_len ks : len ks <= cap ks -> length (visible ks) = len ks.
Proof. unfold visible, cap. rewrite length_take. lia. Qed.

Lemma rotate_once_len cfg ks r cfg' ks' :
  0 < len ks <= cap ks ->
  rotate_once cfg ks (RandOk r) = Rotated cfg' ks' ->
  len ks' = Nat.min (S (len ks)) (cap ks)
  /\ cap ks' = cap ks
  /\ sessionTicketKeys cfg' = visible ks'.
Proof.
  intros Hlen Hone.
  destruct (rotate_once_ok cfg ks r Hlen)
    as (cfg1 & ks1 & Hone' & Hvis & Hinst & Hcap & Hlen1).
  rewrite Hone in Hone'. injection Hone' as <- <-.
  split; [|done].
  rewrite <- (visible_len ks') by lia.
  rewrite Hvis, length_take. cbn [length].
  rewrite visible_len by lia. lia.
Qed.

Lemma rotate_classified cfg ks ticks :
  0 < len ks <= cap ks ->
  sessionTicketKeys cfg = visible ks ->
  match rotateSessionTicketKeys cfg ks ticks with
  | Rotated cfg' ks' =>
    (exists rs, ticks = map RandOk rs)
    /\ cap ks' = cap ks
    /\ len ks' = Nat.min (len ks + length ticks) (cap ks)
    /\ sessionTicketKeys cfg' = visible ks'
    /\ length (sessionTicketKeys cfg') = len ks'
  | Fatal msg =>
    exists rs later, ticks = map RandOk rs ++ RandErr msg :: later
  | OutOfRange => False
  end.
Proof.
  revert cfg ks. induction ticks as [|[r|msg] ticks IH]; intros cfg ks Hlen Hcfg.
  - cbn. split; [by exists []|]. split; [done|]. split; [lia|].
    split; [done|]. rewrite Hcfg. apply visible_len. lia.
  - cbn [rotateSessionTicketKeys].
    destruct (rotate_once_ok cfg ks r Hlen)
      as (cfg1 & ks1 & Hone & _ & _ & _ & Hlen1).
    destruct (rotate_once_len cfg ks r cfg1 ks1 Hlen Hone)
      as (Hl1 & Hcap1 & Hinst1).
    rewrite Hone. specialize (IH cfg1 ks1 Hlen1 Hinst1).
    destruct (rotateSessionTicketKeys cfg1 ks1 ticks) as [cfg' ks'|msg|].
    + destruct IH as ([rs ->] & Hcap & Hl & Hinst).
      split; [by exists (r :: rs)|]. split; [congruence|].
      split; [cbn [length]; lia|]. done.
    + destruct IH as (rs & later & ->). by exists (r :: rs), later.
    + done.
  - cbn [rotateSessionTicketKeys]. rewrite rotate_once_fatal by done.
    by exists [], ticks.
Qed.

(** X9. The rotation loop is safe. From a key slice with at least one key
    and a configuration holding its keys (as [init] leaves them), whatever
    the ticks bring, the loop never indexes out of range. While every
    [rand.Read] succeeds the capacity stays, the length after [n] ticks is
    [min (len + n) cap], and the TLS configuration holds exactly the keys
    of the slice, never none; and the loop ends the process only at a
    failed [rand.Read], the first one. *)
Theorem rotation_safe (cfg : tls_config) (ks : key_slice)
    (ticks : list rand_result) :
  0 < len ks <= cap ks ->
  sessionTicketKeys cfg = visible ks ->
  match rotateSessionTicketKeys cfg ks ticks with
  | Rotated cfg' ks' =>
    (exists rs, ticks = map RandOk rs)
    /\ cap ks' = cap ks
    /\ len ks' = Nat.min (len ks + length ticks) (cap ks)
    /\ sessionTicketKeys cfg' = visible ks'
    /\ 0 < length (sessionTicketKeys cfg') <= cap ks
  | Fatal msg =>
    exists rs later, ticks = map RandOk rs ++ RandErr msg :: later
  | OutOfRange => False
  end.
Proof.
  intros Hlen Hcfg.
  pose proof (rotate_classified cfg ks ticks Hlen Hcfg) as Hrun.
  destruct (rotateSessionTicketKeys cfg ks ticks) as [cfg' ks'|msg|];
    [|done..].
  destruct Hrun as (Hok & Hcap & Hl & Hinst & Hlength).
  do 4 (split; [done|]). lia.
Qed.

Lemma rotation_safe_witness :
  match rotateSessionTicketKeys
          (TlsConfig true VersionTLS12 ["h2"] [Example.key_of Byte.x01])
          (first_keys (Example.key_of Byte.x01))
          [RandOk (Example.key_of Byte.x02); RandErr "EIO";
           RandOk (Example.key_of Byte.x03)]
  with
  | Rotated _ _ => False
  | Fatal msg =>
    exists rs later,
      [RandOk (Example.key_of Byte.x02); RandErr "EIO";
       RandOk (Example.key_of Byte.x03)]
        = map RandOk rs ++ RandErr msg :: later
  | OutOfRange => False
  end.
Proof.
  pose proof (rotation_safe
                (TlsConfig true VersionTLS12 ["h2"] [Example.key_of Byte.x01])
                (first_keys (Example.key_of Byte.x01))
                [RandOk (Example.key_of Byte.x02); RandErr "EIO";
                 RandOk (Example.key_of Byte.x03)]) as Hsafe.
  vm_compute in Hsafe. vm_compute. apply Hsafe.
  - split; repeat constructor.
  - reflexivity.
Defined.

(** X10. A rotation changes the session keys and nothing else of the TLS
    configuration: the advertised protocols, the minimum version and the
    cipher-suite preference are the same after any number of ticks. *)
Theorem rotation_changes_only_keys (cfg : tls_config) (ks : key_slice)
    (ticks : list rand_result) (cfg' : tls_config) (ks' : key_slice) :
  rotateSessionTicketKeys cfg ks ticks = Rotated cfg' ks' ->
  NextProtos cfg' = NextProtos cfg
  /\ MinVersion cfg' = MinVersion cfg
  /\ PreferServerCipherSuites cfg' = PreferServerCipherSuites cfg.
Proof. apply rotate_frame. Qed.

Lemma rotation_changes_only_keys_witness :
  NextProtos
    (TlsConfig true VersionTLS12 ["h2"]
               [Example.key_of Byte.x02; Example.key_of Byte.x01])
    = ["h2"].
Proof.
  apply (rotation_changes_only_keys
           (TlsConfig true VersionTLS12 ["h2"] [Example.key_of Byte.x01])
           (first_keys (Example.key_of Byte.x01))
           [RandOk (Example.key_of Byte.x02)]
           (TlsConfig true VersionTLS12 ["h2"]
                      [Example.key_of Byte.x02; Example.key_of Byte.x01])
           (KeySlice (Example.key_of Byte.x02 :: Example.key_of Byte.x01
                        :: repeat zero_key 94) 2)).
  vm_compute. reflexivity.
Defined.

(** X11. The shifting loop of a rotation, entered at [s2] within the
    length of the slice, moves each of [keys[0..s2-1]] one place up and
    leaves [keys[0]] and everything above [s2] where it was, without
    changing the length; entered at [s2 > 0] outside the length it indexes
    out of range. *)
Theorem shift_loop_moves_up (n s2 : nat) (a : list key) :
  (s2 < n -> n <= length a ->
   exists a',
     shift_loop n s2 a = Some a'
     /\ length a' = length a
     /\ a' !! 0 = a !! 0
     /\ (forall j, j < s2 -> a' !! S j = a !! j)
     /\ (forall j, s2 < j -> a' !! j = a !! j))
  /\ (0 < s2 -> n <= s2 -> shift_loop n s2 a = None).
Proof.
  split; [|apply shift_loop_None].
  intros Hs Hn. eexists. split; [by apply shift_loop_spec|].
  split.
  - rewrite !length_app, !length_take, length_drop. lia.
  - apply shifted_lookups. lia.
Qed.

End RotationFacts.

(** ** More on the accept loop *)

Module ServeFacts.

Import Acceptor AcceptorFacts.
#[local] Open Scope Z_scope.

(** The connections a trace hands to handlers, and the connections among
    the outcomes of [Accept], both in order. *)
Definition handled {Conn} (evs : list (event Conn)) : list Conn :=
  omap (fun e => match e with GoHandle c => Some c | _ => None end) evs.

Definition conns {Conn} (accepts : list (Conn + error)) : list Conn :=
  omap (fun r => match r with inl c => Some c | inr _ => None end) accepts.

(** An outcome of [Accept] that does not end the loop. *)
Definition nonfatal {Conn} (r : Conn + error) : Prop :=
  match r with
  | inl _ => True
  | inr err => temporary err
  end.

Section Loop.

Context {Conn : Type}.
Implicit Types accepts pre rest : list (Conn + error).

Lemma handled_app (evs1 evs2 : list (event Conn)) :
  handled (evs1 ++ evs2) = handled evs1 ++ handled evs2.
Proof. apply omap_app. Qed.

Lemma serve_loop_app_eq accepts rest delay :
  serve_loop (accepts ++ rest) delay =
    match serve_loop accepts delay with
    | (evs, Accepting delay') =>
      (evs ++ (serve_loop rest delay').1, (serve_loop rest delay').2)
    | (evs, Returned err) => (evs, Returned err)
    end.
Proof.
  revert delay. induction accepts as [|[c|err] accepts IH]; intros delay.
  - cbn. by destruct (serve_loop rest delay).
  - cbn [app]. rewrite !serve_loop_success, IH.
    by destruct (serve_loop accepts 0) as [evs [e|d]].
  - cbn [app serve_loop].
    destruct (is_net_error err && Temporary err); [|done].
    rewrite IH.
    by destruct (serve_loop accepts (backoff delay)) as [evs [e|d]].
Qed.

Lemma serve_loop_nonfatal pre delay :
  Forall nonfatal pre ->
  (exists delay', (serve_loop pre delay).2 = Accepting delay')
  /\ handled (serve_loop pre delay).1 = conns pre
  /\ ListenerClose ∉ (serve_loop pre delay).1.
Proof.
  intros Hpre. revert delay.
  induction Hpre as [|[c|err] pre Hr _ IH]; intros delay.
  - cbn. split; [eauto|]. split; [done|]. by intros ?%elem_of_nil.
  - rewrite serve_loop_success. cbn [fst snd].
    destruct (IH 0) as (Hst & Hh & Hcl).
    split; [done|]. split; [cbn; f_equal; exact Hh|].
    by intros [[=]|?]%elem_of_cons.
  - cbn in Hr. rewrite serve_loop_temporary by done. cbn [fst snd].
    destruct (IH (backoff delay)) as (Hst & Hh & Hcl).
    split; [done|]. split; [exact Hh|].
    intros [[=]|[[=]|?]%elem_of_cons]%elem_of_cons. done.
Qed.

Lemma serve_loop_returns pre fatal rest delay :
  Forall nonfatal pre -> ~ temporary fatal ->
  serve_loop (pre ++ inr fatal :: rest) delay
    = ((serve_loop pre delay).1 ++ [ListenerClose], Returned fatal).
Proof.
  intros Hpre Hfatal. rewrite serve_loop_app_eq.
  destruct (serve_loop_nonfatal pre delay Hpre) as ([d' Hst] & _ & _).
  destruct (serve_loop pre delay) as [evs st]. cbn in Hst. subst st.
  by rewrite serve_loop_fatal.
Qed.

End Loop.

Lemma conns_Accept d (accepted : list (TCPConn + error)) :
  conns (map (Accept d) accepted)
    = (fun tc => MkTCPConn (RemoteAddr tc) true (Some d)) <$> conns accepted.
Proof.
  induction accepted as [|[tc|err] accepted IH]; [done| |done].
  cbn. f_equal. apply IH.
Qed.

Lemma nonfatal_Accept d (accepted : list (TCPConn + error)) :
  Forall nonfatal accepted -> Forall nonfatal (map (Accept d) accepted).
Proof.
  induction 1 as [|[tc|err] accepted Hr _ IH]; cbn [map Accept];
    constructor; done.
Qed.

Lemma spec_delay_cap n : (8 <= n)%nat -> spec_delay (S n) = Second.
Proof.
  intros Hn. cbn [spec_delay]. unfold Millisecond, Second.
  assert (2 ^ 8 <= 2 ^ Z.of_nat n) by (apply Z.pow_le_mono_r; lia).
  lia.
Qed.


(** X13. The accept loop loses no connection. As long as [Accept] yields
    connections and temporary errors only, the loop keeps accepting, never
    closes the listener, and hands every accepted connection to a handler,
    once each and in the order of acceptance. At the first non-temporary
    error it closes the listener, as the last thing it does, and returns
    that error, whatever would have been accepted later. *)
Theorem serve_hands_over_all (Conn : Type) (pre rest : list (Conn + error))
    (fatal : error) :
  Forall nonfatal pre -> ~ temporary fatal ->
  handled (serve pre).1 = conns pre
  /\ (exists delay, (serve pre).2 = Accepting delay)
  /\ (ListenerClose ∉ (serve pre).1)
  /\ serve (pre ++ inr fatal :: rest)
       = ((serve pre).1 ++ [ListenerClose], Returned fatal)
  /\ handled (serve (pre ++ inr fatal :: rest)).1 = conns pre.
Proof.
  intros Hpre Hfatal. unfold serve.
  destruct (serve_loop_nonfatal pre 0 Hpre) as (Hst & Hh & Hcl).
  split; [done|]. split; [done|]. split; [done|].
  rewrite serve_loop_returns by done. split; [done|].
  cbn [fst]. rewrite handled_app, Hh. cbn. apply app_nil_r.
Qed.

Lemma serve_hands_over_all_witness :
  handled (serve [inl 1%nat; inr temporary_error; inl 2%nat;
                  inr closed_error; inl 3%nat]).1 = [1%nat; 2%nat].
Proof.
  apply (serve_hands_over_all nat
           [inl 1%nat; inr temporary_error; inl 2%nat] [inl 3%nat]
           closed_error).
  - repeat constructor.
  - intros [H _]. discriminate H.
Defined.

(** X14. Behind the keep-alive listener the handlers get each accepted
    TCP connection, in order, with keep-alive on, the period set and the
    remote address as accepted, as long as no non-temporary error comes. *)
Theorem serve_tcp_handlers (d_KeepAlive : Duration)
    (accepted : list (TCPConn + error)) :
  Forall nonfatal accepted ->
  handled (serve_tcp d_KeepAlive accepted).1
    = (fun tc => MkTCPConn (RemoteAddr tc) true (Some d_KeepAlive))
        <$> conns accepted
  /\ RemoteAddr <$> handled (serve_tcp d_KeepAlive accepted).1
     = RemoteAddr <$> conns accepted.
Proof.
  intros Hacc. unfold serve_tcp, serve.
  destruct (serve_loop_nonfatal (map (Accept d_KeepAlive) accepted) 0
              (nonfatal_Accept d_KeepAlive accepted Hacc)) as (_ & -> & _).
  rewrite conns_Accept. split; [done|].
  rewrite <- list_fmap_compose. done.
Qed.

Lemma serve_tcp_handlers_witness :
  handled (serve_tcp 180000000000
             [inl (MkTCPConn "192.0.2.1:4711" false None);
              inr temporary_error;
              inl (MkTCPConn "192.0.2.2:4712" false None)]).1
    = [MkTCPConn "192.0.2.1:4711" true (Some 180000000000);
       MkTCPConn "192.0.2.2:4712" true (Some 180000000000)].
Proof.
  apply (serve_tcp_handlers 180000000000
           [inl (MkTCPConn "192.0.2.1:4711" false None);
            inr temporary_error;
            inl (MkTCPConn "192.0.2.2:4712" false None)]).
  repeat constructor.
Defined.

(** X15. While temporary errors go on, the delay of the accept loop never
    goes down, and from the ninth error in a row on the loop sleeps
    exactly one second each time. *)
Theorem backoff_reaches_cap (Conn : Type) (errs : list error)
    (delay : Duration) :
  Forall temporary errs -> (9 <= length errs)%nat ->
  (serve_loop (Conn := Conn) (map inr errs) 0).2 = Accepting Second
  /\ backoff Second = Second
  /\ (0 <= delay <= Second -> delay <= backoff delay).
Proof.
  intros Herrs Hlen.
  pose proof (serve_loop_streak (Conn := Conn) errs 0 [] Herrs) as Hstreak.
  rewrite app_nil_r in Hstreak. cbn [spec_delay] in Hstreak.
  rewrite Hstreak. cbn [snd serve_loop Nat.add].
  destruct (length errs) as [|n] eqn:Hn; [lia|].
  rewrite spec_delay_cap by lia.
  split; [done|]. split; [reflexivity|].
  intros Hd. unfold backoff, Second, Millisecond in *.
  case_decide; [lia|]. rewrite wrap64_small by lia.
  case_decide; lia.
Qed.

Lemma backoff_reaches_cap_witness :
  (serve_loop (Conn := nat) (map inr (repeat temporary_error 9)) 0).2
    = Accepting Second.
Proof.
  apply (backoff_reaches_cap nat (repeat temporary_error 9) 0).
  - repeat constructor.
  - vm_compute. reflexivity.
Defined.

End ServeFacts.

(** ** More on connections and the relay *)

Module ConnectionFacts.

Import Proxy Relay RelayFacts.

Definition is_accepted (a : action) : bool :=
  match a with ALog (Accepted _ _) => true | _ => false end.
Definition is_failure (a : action) : bool :=
  match a with ALog (Failure _ _) => true | _ => false end.
Definition is_send_false (a : action) : bool :=
  match a with ASend false => true | _ => false end.

Lemma count_app f tr1 tr2 : count f (tr1 ++ tr2) = count f tr1 + count f tr2.
Proof. unfold count. by rewrite filter_app, length_app. Qed.

Lemma count_zero f tr e : count f tr = 0 -> e ∈ tr -> f e.2 = false.
Proof.
  unfold count. intros Hz Hin. destruct (f e.2) eqn:Hf; [|done].
  assert (Hin' : e ∈ filter (fun e => f e.2 = true) tr)
    by (by apply list_elem_of_filter).
  destruct (filter _ tr); [by apply elem_of_nil in Hin'|done].
Qed.

(** Membership in a list written out. *)
Ltac in_list := apply list_elem_of_In; cbn; auto 12.
Ltac split_in H :=
  apply list_elem_of_In in H; cbn in H;
  repeat match goal with
         | H : _ \/ _ |- _ => destruct H as [H|H]
         | H : False |- _ => destruct H
         end.

Section Backend.

Variable b : backend.
Variable raddr : string.

#[local] Abbreviation shape := (shape b raddr).
#[local] Abbreviation run := (run b raddr).
#[local] Abbreviation inv := (inv b raddr).

Lemma shape_logs t p l :
  shape t p l ->
  tally is_dial l = 0 /\ tally is_accepted l = 0
  /\ tally is_failure l <= tally is_send_true l
  /\ (0 < tally is_send_false l -> tally is_teardown l = 0).
Proof.
  unfold RelayFacts.shape.
  destruct p as [|buf|buf err|buf e|buf|buf|buf|buf|]; intros Hl;
    repeat match goal with
           | H : exists _, _ |- _ => destruct H as [? H]
           | H : _ \/ _ |- _ => destruct H as [H|H]
           end;
    subst l; try (destruct t);
    repeat match goal with err : option string |- _ => destruct err end;
    vm_compute; repeat split; lia.
Qed.

(** A logged failure is the copy error of the goroutine that logs it, and
    that goroutine has sent on [first]. *)
Lemma shape_failure t p l n e :
  shape t p l -> ALog (Failure n e) ∈ l ->
  n = name b /\ ACopy (Some e) ∈ l /\ ASend true ∈ l.
Proof.
  unfold RelayFacts.shape.
  destruct p as [|buf|buf err|buf e'|buf|buf|buf|buf|]; intros Hl Hin;
    repeat match goal with
           | H : exists _, _ |- _ => destruct H as [? H]
           | H : _ \/ _ |- _ => destruct H as [H|H]
           end;
    subst l;
    repeat match goal with err : option string |- _ => destruct err end;
    unfold won_head, lost, teardown in *; cbn [app] in *;
    split_in Hin; try discriminate Hin;
    injection Hin as <- <-; (split; [done|split; in_list]).
Qed.

(** The counts of a relay that satisfies the invariant. *)
Lemma inv_counts bp0 s :
  inv bp0 s ->
  count (is_close RawClient) (trace s) = 0
  /\ count is_dial (trace s) = 0
  /\ count is_accepted (trace s) = 0
  /\ count (is_close TlsClient) (trace s) <= 1
  /\ count (is_close BackendSock) (trace s) <= 1
  /\ count is_disconnect (trace s) <= 1
  /\ count is_failure (trace s) <= 1
  /\ (at_handler s = Done -> at_spawned s = Done ->
      count (is_close TlsClient) (trace s) = 1
      /\ count (is_close BackendSock) (trace s) = 1
      /\ count is_disconnect (trace s) = 1).
Proof.
  intros Hinv. pose proof Hinv as (HH & HS & Hsig & _).
  pose proof (shape_tallies _ _ _ _ _ HH) as (_ & HH1 & HH2 & HH0 & HH3 & _).
  pose proof (shape_tallies _ _ _ _ _ HS) as (_ & HS1 & HS2 & HS0 & HS3 & _).
  pose proof (shape_logs _ _ _ HH) as (HHd & HHa & HHf & _).
  pose proof (shape_logs _ _ _ HS) as (HSd & HSa & HSf & _).
  pose proof (signal_wins _ _ Hsig) as (Hwins & Hlen & Hfull).
  pose proof (count_sends_true (trace s)) as Htrue.
  rewrite count_tally, Hwins in Htrue.
  rewrite !count_tally.
  do 7 (split; [lia|]).
  intros HdoneH HdoneS. rewrite HdoneH in HH. rewrite HdoneS in HS.
  pose proof (shape_Done _ _ _ _ HH) as (HsH & HH5 & HH6 & HH7 & _).
  pose proof (shape_Done _ _ _ _ HS) as (HsS & HS5 & HS6 & HS7 & _).
  cbn [dst src] in *.
  pose proof (count_sends (trace s)) as Hsends. rewrite count_tally in Hsends.
  destruct (sends (trace s)) as [|x rest] eqn:Hss; [cbn in Hsends; lia|].
  rewrite Hfull in * by done. lia.
Qed.

Lemma run_snoc sched ch s : run (sched ++ [ch]) s = step b raddr ch (run sched s).
Proof. unfold Relay.run. by rewrite fold_left_app. Qed.

(** What a step adds to the trace. *)
Lemma step_trace ch s :
  trace (step b raddr ch s) = trace s
  \/ exists a p' f' bp',
      cp_step b raddr (who ch) ch (at_tid (who ch) s) (first s) (bufferPool s)
        = Some (a, p', f', bp')
      /\ trace (step b raddr ch s) = trace s ++ [(who ch, a)].
Proof.
  unfold Relay.step.
  destruct (cp_step b raddr (who ch) ch (at_tid (who ch) s) (first s)
              (bufferPool s)) as [[[[a p'] f'] bp']|] eqn:Hstep; [|by left].
  right. exists a, p', f', bp'. split; [done|]. by destruct (who ch).
Qed.

Lemma cp_step_disconnect t ch p f bp a p' f' bp' :
  cp_step b raddr t ch p f bp = Some (a, p', f', bp') ->
  is_disconnect a = true -> exists buf, p = AtLogDisconnected buf.
Proof.
  unfold Relay.cp_step.
  destruct p as [|buf|buf err|buf e|buf|buf|buf|buf|];
    try (intros [= <- <- <- <-]; cbn; by eauto).
  - destruct (pool_get (pick ch) bp). by intros [= <- <- <- <-].
  - destruct (try_send f) as [f1 [|]]; by intros [= <- <- <- <-].
Qed.

Lemma snoc_split {A} (pre : list A) e post tr x :
  pre ++ e :: post = tr ++ [x] ->
  (post = [] /\ pre = tr /\ e = x)
  \/ exists post', post = post' ++ [x] /\ tr = pre ++ e :: post'.
Proof.
  destruct post as [|y post] using rev_ind.
  - intros [-> ->]%(app_inj_tail pre tr e x). by left.
  - clear IHpost. rewrite app_comm_cons, app_assoc.
    intros [<- ->]%app_inj_tail. right. by exists post.
Qed.

(** The disconnect line comes after both closes. *)
Lemma run_disconnect_last bp sched pre e post :
  trace (run sched (start bp)) = pre ++ e :: post ->
  is_disconnect e.2 = true ->
  count (is_close TlsClient) pre = 1
  /\ count (is_close BackendSock) pre = 1.
Proof.
  revert pre e post. induction sched as [|ch sched IH] using rev_ind;
    intros pre e post Htr He.
  - cbn in Htr. by destruct pre.
  - rewrite run_snoc in Htr.
    assert (Hinv : inv bp (run sched (start bp))) by apply run_inv, start_inv.
    set (s := run sched (start bp)) in *.
    destruct (step_trace ch s) as [Hsame|(a & p' & f' & bp' & Hstep & Hadd)].
    + rewrite Hsame in Htr. by eapply IH.
    + rewrite Hadd in Htr. symmetry in Htr.
      apply snoc_split in Htr as [(-> & -> & ->)|(post' & -> & Htr)];
        [|by eapply IH].
      cbn [snd] in He.
      destruct (cp_step_disconnect _ _ _ _ _ _ _ _ _ Hstep He) as [buf Hp].
      pose proof (at_tid_shape b raddr bp s (who ch) Hinv) as Hshape.
      rewrite Hp in Hshape. destruct Hshape as [err Hl].
      pose proof Hinv as (HH & HS & Hsig & _).
      pose proof (shape_tallies _ _ _ _ _ HH) as (_ & HH1 & HH2 & _).
      pose proof (shape_tallies _ _ _ _ _ HS) as (_ & HS1 & HS2 & _).
      pose proof (signal_wins _ _ Hsig) as (Hwins & Hlen & _).
      pose proof (count_sends_true (trace s)) as Htrue.
      rewrite count_tally, Hwins in Htrue.
      rewrite !count_tally.
      assert (Hmine :
        tally is_send_true (local (who ch) (trace s)) = 1
        /\ tally (is_close (dst (who ch))) (local (who ch) (trace s)) = 1
        /\ tally (is_close (src (who ch))) (local (who ch) (trace s)) = 1).
      { rewrite Hl. destruct (who ch), err; vm_compute; done. }
      destruct Hmine as (Hw & Hd & Hs).
      destruct (who ch); cbn [dst src] in *; lia.
Qed.

End Backend.

Lemma count_cons f e tr :
  count f (e :: tr) = (if f e.2 then 1 else 0) + count f tr.
Proof.
  unfold count. rewrite filter_cons.
  destruct (f e.2); case_decide; done.
Qed.

(** *** One connection *)

(** The backend the handler finds, if any. *)
Definition found (w : world) (raddr : string) (hs : handshake)
    : option backend :=
  (handle w raddr hs).2.

(** A connection is finished when its handler has returned and, if it
    started a relay, both goroutines of the relay are done. *)
Definition finished (w : world) (raddr : string) (hs : handshake)
    (dial : option string) (bp : pool) (sched : list choice) : Prop :=
  match found w raddr hs, dial with
  | Some b, None =>
    at_handler (run b raddr sched (start bp)) = Done
    /\ at_spawned (run b raddr sched (start bp)) = Done
  | _, _ => True
  end.

(** What a connection does, by the way it goes. *)
Inductive course (w : world) (raddr : string) (hs : handshake)
    (dial : option string) (bp : pool) (sched : list choice) : Prop :=
| Unrouted (l : log_line) :
    found w raddr hs = None ->
    is_accepted (ALog l) = false -> is_disconnect (ALog l) = false ->
    connection w raddr hs dial bp sched
      = [(Handler, ALog l); (Handler, AClose RawClient)] ->
    course w raddr hs dial bp sched
| Undialled (b : backend) (err : string) :
    found w raddr hs = Some b -> dial = Some err ->
    connection w raddr hs dial bp sched
      = [(Handler, ALog (Accepted (name b) raddr)); (Handler, ADial (addr b));
         (Handler, ALog (Failure (name b) err)); (Handler, AClose TlsClient);
         (Handler, ALog (Disconnected (name b) raddr))] ->
    course w raddr hs dial bp sched
| Relayed (b : backend) :
    found w raddr hs = Some b -> dial = None ->
    connection w raddr hs dial bp sched
      = [(Handler, ALog (Accepted (name b) raddr)); (Handler, ADial (addr b))]
        ++ trace (run b raddr sched (start bp)) ->
    course w raddr hs dial bp sched.

Lemma connection_course w raddr hs dial bp sched :
  course w raddr hs dial bp sched.
Proof.
  unfold connection, found.
  destruct hs as [err|np sn].
  - apply (Unrouted _ _ _ _ _ _ (HandshakeFailed raddr err));
      unfold connection, found; cbn; done.
  - destruct (handle w raddr (ConnectionState np sn)) as [acts o] eqn:Hh.
    unfold handle in Hh.
    destruct (_ ≫= lookup sn) as [b|] eqn:Hb; injection Hh as <- <-.
    + destruct dial as [err|].
      * eapply Undialled; unfold connection, found, handle;
          rewrite ?Hb; cbn; done.
      * eapply Relayed; unfold connection, found, handle;
          rewrite ?Hb; cbn; done.
    + apply (Unrouted _ _ _ _ _ _ (UnableToFind np sn raddr));
        unfold connection, found, handle; rewrite ?Hb; cbn; done.
Qed.

Ltac count_out :=
  rewrite ?count_app, ?count_cons; change (count _ []) with 0;
  cbn [snd is_close is_dial is_accepted is_disconnect is_failure].

(** X16. Every connection closes its client side once. Whatever the
    handshake, the routing, the dial and the relay do, the raw client
    connection and its TLS wrapper are closed at most once between them,
    and exactly once when the connection is finished: the raw connection
    when no backend is found, the wrapper otherwise. *)
Theorem client_closed_once (w : world) (raddr : string) (hs : handshake)
    (dial : option string) (bp : pool) (sched : list choice) :
  count (is_close RawClient) (connection w raddr hs dial bp sched)
    + count (is_close TlsClient) (connection w raddr hs dial bp sched) <= 1
  /\ (finished w raddr hs dial bp sched ->
      count (is_close RawClient) (connection w raddr hs dial bp sched)
        + count (is_close TlsClient) (connection w raddr hs dial bp sched)
        = 1)
  /\ count (is_close RawClient) (connection w raddr hs dial bp sched)
       = match found w raddr hs with Some _ => 0 | None => 1 end.
Proof.
  unfold finished.
  destruct (connection_course w raddr hs dial bp sched)
    as [l Hf Ha Hd Htr|b err Hf -> Htr|b Hf -> Htr]; rewrite Htr, Hf.
  - count_out. vm_compute. repeat split; lia.
  - count_out. vm_compute. repeat split; lia.
  - pose proof (inv_counts b raddr bp _
                  (run_inv b raddr bp sched _ (start_inv b raddr bp)))
      as (Hraw & _ & _ & Htls & _ & _ & _ & Hdone).
    count_out. rewrite Hraw. cbn.
    split; [lia|]. split; [|done].
    intros [HH HS]. destruct (Hdone HH HS) as (-> & _). done.
Qed.

(** X17. The accepted and disconnected lines pair up. A connection logs
    the accepted line once if a backend is found and never otherwise; it
    logs a disconnected line at most as often, and, when finished, exactly
    as often. *)
Theorem accepted_disconnected_paired (w : world) (raddr : string)
    (hs : handshake) (dial : option string) (bp : pool)
    (sched : list choice) :
  count is_accepted (connection w raddr hs dial bp sched)
    = match found w raddr hs with Some _ => 1 | None => 0 end
  /\ count is_disconnect (connection w raddr hs dial bp sched)
     <= count is_accepted (connection w raddr hs dial bp sched)
  /\ (finished w raddr hs dial bp sched ->
      count is_disconnect (connection w raddr hs dial bp sched)
        = count is_accepted (connection w raddr hs dial bp sched)).
Proof.
  unfold finished.
  destruct (connection_course w raddr hs dial bp sched)
    as [l Hf Ha Hd Htr|b err Hf -> Htr|b Hf -> Htr]; rewrite Htr, Hf.
  - destruct l; try discriminate Ha; try discriminate Hd;
      vm_compute; repeat split; lia.
  - vm_compute. repeat split; lia.
  - pose proof (inv_counts b raddr bp _
                  (run_inv b raddr bp sched _ (start_inv b raddr bp)))
      as (_ & _ & Hacc & _ & _ & Hdisc & _ & Hdone).
    count_out. rewrite Hacc. cbn.
    split; [done|]. split; [lia|].
    intros [HH HS]. destruct (Hdone HH HS) as (_ & _ & ->). done.
Qed.

(** X18. A connection dials at most once, and only the address of the
    backend the handler found: never after a failed handshake or a routing
    miss. The backend connection is closed at most once, only after a dial
    that succeeded, and exactly once when such a connection is finished. *)
Theorem dials_found_backend_once (w : world) (raddr : string)
    (hs : handshake) (dial : option string) (bp : pool)
    (sched : list choice) :
  count is_dial (connection w raddr hs dial bp sched)
    = match found w raddr hs with Some _ => 1 | None => 0 end
  /\ (forall t a,
        (t, ADial a) ∈ connection w raddr hs dial bp sched ->
        t = Handler /\ exists b, found w raddr hs = Some b /\ a = addr b)
  /\ count (is_close BackendSock) (connection w raddr hs dial bp sched)
     <= match found w raddr hs, dial with
        | Some _, None => 1
        | _, _ => 0
        end
  /\ (finished w raddr hs dial bp sched ->
      count (is_close BackendSock) (connection w raddr hs dial bp sched)
        = match found w raddr hs, dial with
          | Some _, None => 1
          | _, _ => 0
          end).
Proof.
  unfold finished.
  destruct (connection_course w raddr hs dial bp sched)
    as [l Hf Ha Hd Htr|b err Hf -> Htr|b Hf -> Htr]; rewrite Htr, Hf.
  - count_out. split; [vm_compute; lia|]. split.
    { intros t a Hin. split_in Hin; discriminate Hin. }
    vm_compute. split; lia.
  - count_out. split; [vm_compute; lia|]. split.
    { intros t a Hin. split_in Hin; try discriminate Hin.
      injection Hin as <- <-. eauto. }
    vm_compute. split; lia.
  - pose proof (inv_counts b raddr bp _
                  (run_inv b raddr bp sched _ (start_inv b raddr bp)))
      as (_ & Hdial & _ & _ & Hback & _ & _ & Hdone).
    count_out. rewrite Hdial. cbn.
    split; [done|]. split.
    { intros t a Hin.
      apply elem_of_cons in Hin as [Hin|Hin]; [discriminate Hin|].
      apply elem_of_cons in Hin as [Hin|Hin];
        [injection Hin as -> ->; eauto|].
      pose proof (count_zero _ _ _ Hdial Hin) as Hno. discriminate Hno. }
    split; [lia|].
    intros [HH HS]. destruct (Hdone HH HS) as (_ & -> & _). done.
Qed.

(** X19. The relay logs the winner's copy error and no other. Under every
    schedule at most one failure line is written by the relay; a failure
    line carries the backend's label and the error that the copy of the
    goroutine writing it returned, and that goroutine has sent on [first];
    a goroutine whose attempt on [first] failed writes nothing and closes
    nothing, so the error its copy met is never logged. *)
Theorem relay_logs_winners_error (b : backend) (raddr : string) (bp : pool)
    (sched : list choice) :
  let s := run b raddr sched (start bp) in
  count is_failure (trace s) <= 1
  /\ (forall t n e,
        (t, ALog (Failure n e)) ∈ trace s ->
        n = name b
        /\ (t, ACopy (Some e)) ∈ trace s
        /\ (t, ASend true) ∈ trace s)
  /\ (forall t a,
        (t, ASend false) ∈ trace s -> (t, a) ∈ trace s ->
        is_teardown a = false).
Proof.
  intros s.
  assert (Hinv : inv b raddr bp s) by apply run_inv, start_inv.
  split; [apply (inv_counts b raddr bp s Hinv)|]. split.
  - intros t n e Hin%elem_of_local.
    destruct (shape_failure b raddr t _ _ n e
                (at_tid_shape b raddr bp s t Hinv) Hin) as (Hn & Hc & Hs).
    split; [done|]. split; by apply elem_of_local.
  - intros t a Hlost%elem_of_local Hin%elem_of_local.
    pose proof (shape_logs b raddr t _ _ (at_tid_shape b raddr bp s t Hinv))
      as (_ & _ & _ & Hquiet).
    eapply tally_zero; [|exact Hin]. apply Hquiet.
    by apply (tally_elem is_send_false _ (ASend false)).
Qed.

(** X20. No buffer is in two hands. If the pool starts with distinct
    buffers, all made before, then under every schedule the buffers at
    rest and the buffers the two goroutines hold are pairwise distinct:
    the two directions never copy through the same buffer at the same
    time, and a buffer in use is not at rest in the pool. *)
Theorem relay_buffers_exclusive (b : backend) (raddr : string) (bp : pool)
    (sched : list choice) :
  NoDup (free bp) -> Forall (fun buf => buf < fresh bp) (free bp) ->
  NoDup (free (bufferPool (run b raddr sched (start bp)))
         ++ held (run b raddr sched (start bp)))
  /\ Forall (fun buf => buf < fresh (bufferPool (run b raddr sched (start bp))))
            (free (bufferPool (run b raddr sched (start bp)))
             ++ held (run b raddr sched (start bp)))
  /\ forall buf,
       buf ∈ held_at (at_handler (run b raddr sched (start bp))) ->
       (buf ∉ held_at (at_spawned (run b raddr sched (start bp))))
       /\ (buf ∉ free (bufferPool (run b raddr sched (start bp)))).
Proof.
  intros Hnd Hold. set (s := run b raddr sched (start bp)).
  assert (Hinv : inv b raddr bp s) by apply run_inv, start_inv.
  destruct Hinv as (_ & _ & _ & Hle & Hperm).
  assert (Hall : NoDup (free (bufferPool s) ++ held s)
                 /\ Forall (fun buf => buf < fresh (bufferPool s))
                           (free (bufferPool s) ++ held s)).
  { rewrite Hperm. split.
    - apply NoDup_app. split; [done|]. split; [|apply NoDup_seq].
      intros x Hx Hseq. rewrite Forall_forall in Hold.
      apply Hold in Hx. apply elem_of_seq in Hseq. lia.
    - apply Forall_app. split.
      + eapply Forall_impl; [exact Hold|]. cbn. lia.
      + apply Forall_forall. intros x Hx%elem_of_seq. lia. }
  destruct Hall as [Hnd' Hlt]. split; [done|]. split; [done|].
  intros buf Hbuf. unfold held in Hnd'.
  apply NoDup_app in Hnd' as (_ & Hdisj & Hheld).
  apply NoDup_app in Hheld as (_ & Hdisj' & _).
  split; [by apply Hdisj'|].
  intros Hfree. apply (Hdisj buf Hfree). apply elem_of_app. by left.
Qed.

Lemma relay_buffers_exclusive_witness :
  NoDup (free (bufferPool (run (Backend "h2.a.example: " "127.0.0.1:9001")
                               "198.51.100.7:50000" (take 4 eof_first)
                               (start (Pool [] 0))))
         ++ held (run (Backend "h2.a.example: " "127.0.0.1:9001")
                      "198.51.100.7:50000" (take 4 eof_first)
                      (start (Pool [] 0)))).
Proof.
  apply (relay_buffers_exclusive (Backend "h2.a.example: " "127.0.0.1:9001")
           "198.51.100.7:50000" (Pool [] 0) (take 4 eof_first)).
  - apply NoDup_nil_2.
  - apply Forall_nil_2.
Defined.

(** X21. The disconnected line of the relay is written after both sockets
    are closed: under every schedule, when a disconnected line is in the
    trace, each of the two sockets has been closed exactly once before it,
    and neither is closed after it. *)
Theorem disconnect_after_closes (b : backend) (raddr : string) (bp : pool)
    (sched : list choice) (pre : list event) (e : event) (post : list event) :
  trace (run b raddr sched (start bp)) = pre ++ e :: post ->
  is_disconnect e.2 = true ->
  count (is_close TlsClient) pre = 1
  /\ count (is_close BackendSock) pre = 1
  /\ count (is_close TlsClient) post = 0
  /\ count (is_close BackendSock) post = 0.
Proof.
  intros Htr He.
  destruct (run_disconnect_last b raddr bp sched pre e post Htr He)
    as [Htls Hback].
  pose proof (inv_counts b raddr bp _
                (run_inv b raddr bp sched _ (start_inv b raddr bp)))
    as (_ & _ & _ & Htls' & Hback' & _).
  rewrite Htr, !count_app, !count_cons in Htls', Hback'.
  repeat split; lia.
Qed.

Lemma disconnect_after_closes_witness :
  count (is_close TlsClient)
        [(Spawned, AGet 0); (Handler, AGet 1); (Handler, ACopy None);
         (Handler, ASend true); (Handler, AClose BackendSock);
         (Handler, AClose TlsClient)] = 1.
Proof.
  apply (disconnect_after_closes
           (Backend "h2.a.example: " "127.0.0.1:9001") "198.51.100.7:50000"
           (Pool [] 0) eof_first
           [(Spawned, AGet 0); (Handler, AGet 1); (Handler, ACopy None);
            (Handler, ASend true); (Handler, AClose BackendSock);
            (Handler, AClose TlsClient)]
           (Handler, ALog (Disconnected "h2.a.example: " "198.51.100.7:50000"))
           [(Spawned, ACopy (Some "use of closed network connection"));
            (Spawned, ASend false); (Handler, APut 1); (Spawned, APut 0)]).
  - vm_compute. reflexivity.
  - reflexivity.
Defined.

End ConnectionFacts.
